(** * kots: provisioning of the admin console's secrets and object store

    A shallow embedding of [pkg/kotsadm] (secrets.go and minio.go, the two
    files appended to [src/pkg/upload/upload.go]): the render path
    ([getSecretsYAML], [getMinioYAML]) and the apply path ([ensureSecrets],
    [ensureMinio] and the eight ensure-operations).

    The Go code talks to four collaborators: the cluster's API server
    through a clientset, the process-wide random source, the operator at
    the terminal, and the YAML serializer.  They are modelled as a [World]
    that is threaded through every call, together with a trace of the calls
    made, so that "performs no create" or "runs before" are statements
    about that trace. *)

From Stdlib Require Import Ascii String.
From stdpp Require Import base numbers strings list gmap.

Local Open Scope string_scope.
Local Open Scope Z_scope.
Local Open Scope list_scope.

(** ** Errors *)

(** [metav1.StatusReason], the reasons the API server attaches to a
    failure. *)
Inductive StatusReason :=
  | StatusReasonUnknown
  | StatusReasonUnauthorized
  | StatusReasonForbidden
  | StatusReasonNotFound
  | StatusReasonAlreadyExists
  | StatusReasonBadRequest
  | StatusReasonServerTimeout
  | StatusReasonInternalError.

(** Go's [error] values as this package meets them: a status error of the
    API machinery, a plain [errors.New] value, and the wrapper that
    [errors.Wrap] puts around a cause. *)
Inductive error :=
  | StatusError (reason : StatusReason) (message : string)
  | errorString (message : string)
  | withMessage (cause : error) (msg : string).

#[global] Instance StatusReason_eq_dec : EqDecision StatusReason.
Proof. solve_decision. Defined.

#[global] Instance error_eq_dec : EqDecision error.
Proof. solve_decision. Defined.

(** [errors.Wrap]: nil stays nil. *)
Definition errors_Wrap (err : option error) (message : string) : option error :=
  match err with
  | None => None
  | Some e => Some (withMessage e message)
  end.

(** [kuberneteserrors.IsNotFound]: the reason of a status error is looked
    at, nothing else; a wrapped or a plain error is never "not found". *)
Definition IsNotFound (err : error) : bool :=
  match err with
  | StatusError StatusReasonNotFound _ => true
  | _ => false
  end.

(** The innermost error under any number of [errors.Wrap] layers. *)
Fixpoint Cause (err : error) : error :=
  match err with
  | withMessage c _ => Cause c
  | _ => err
  end.

(** ** Resources and the cluster *)

Inductive Kind := KSecret | KConfigMap | KStatefulSet | KService | KJob.

#[global] Instance Kind_eq_dec : EqDecision Kind.
Proof. solve_decision. Defined.

Definition Kind_to_nat (k : Kind) : nat :=
  match k with
  | KSecret => 0 | KConfigMap => 1 | KStatefulSet => 2 | KService => 3 | KJob => 4
  end%nat.

Definition Kind_of_nat (n : nat) : Kind :=
  match n with
  | 0 => KSecret | 1 => KConfigMap | 2 => KStatefulSet | 3 => KService | _ => KJob
  end%nat.

#[global] Instance Kind_countable : Countable Kind.
Proof.
  apply (inj_countable' Kind_to_nat Kind_of_nat).
  intros []; reflexivity.
Defined.

(** (kind, namespace, name): what the applier tests existence by. *)
Abbreviation ClusterResourceKey := (Kind * string * string)%type.

(** A resource definition: the object's identity and the variable material
    the builder was given. *)
Record Resource := mkResource {
  res_kind : Kind;
  res_namespace : string;
  res_name : string;
  res_payload : list string
}.

#[global] Instance Resource_eq_dec : EqDecision Resource.
Proof. solve_decision. Defined.

(** [DeployOptions]; the struct is declared outside the two files, the
    fields are the ones they read or write. *)
Record DeployOptions := mkDeployOptions {
  Namespace : string;
  SharedPassword : string;
  SharedPasswordBcrypt : string;
  S3AccessKey : string;
  S3SecretKey : string;
  JWT : string;
  PostgresPassword : string
}.

Definition set_SharedPassword (v : string) (o : DeployOptions) : DeployOptions :=
  mkDeployOptions (Namespace o) v (SharedPasswordBcrypt o) (S3AccessKey o)
                  (S3SecretKey o) (JWT o) (PostgresPassword o).

Definition set_SharedPasswordBcrypt (v : string) (o : DeployOptions) : DeployOptions :=
  mkDeployOptions (Namespace o) (SharedPassword o) v (S3AccessKey o)
                  (S3SecretKey o) (JWT o) (PostgresPassword o).

Definition set_S3AccessKey (v : string) (o : DeployOptions) : DeployOptions :=
  mkDeployOptions (Namespace o) (SharedPassword o) (SharedPasswordBcrypt o) v
                  (S3SecretKey o) (JWT o) (PostgresPassword o).

Definition set_S3SecretKey (v : string) (o : DeployOptions) : DeployOptions :=
  mkDeployOptions (Namespace o) (SharedPassword o) (SharedPasswordBcrypt o)
                  (S3AccessKey o) v (JWT o) (PostgresPassword o).

(** One key press that ends a line of operator input at the prompt. *)
Inductive Key :=
  | Enter (line : string)
  | CtrlC
  | CtrlD.

(** What was called, in order.  A query and a create carry the key and the
    error they returned. *)
Inductive Event :=
  | EvGet (k : ClusterResourceKey) (err : option error)
  | EvCreate (k : ClusterResourceKey) (obj : Resource) (err : option error)
  | EvUuid (u : string)
  | EvBcrypt (password : string) (err : option error)
  | EvPrompt (key : Key)
  | EvEncode (obj : Resource) (err : option error).

(** The world one invocation runs against.

    - [objects], [getFault], [createFault]: the cluster.  The API server's
      answer is a function of the cluster state: a denied permission or an
      outage for a key is part of that state.
    - [entropy], [drawn]: [crypto/rand]; the n-th read returns [entropy n].
    - [operator]: the lines the operator is going to type.
    - [deployOptions]: the struct behind the [*DeployOptions] pointer that
      [getSecretsYAML] and [ensureSecrets] receive.
    - [trace]: the calls made so far, oldest first. *)
Record World := mkWorld {
  objects : gmap ClusterResourceKey Resource;
  getFault : ClusterResourceKey -> option error;
  createFault : ClusterResourceKey -> option error;
  entropy : nat -> list Z;
  drawn : nat;
  operator : list Key;
  deployOptions : DeployOptions;
  trace : list Event
}.

Definition with_objects (m : gmap ClusterResourceKey Resource) (w : World) : World :=
  mkWorld m (getFault w) (createFault w) (entropy w) (drawn w) (operator w)
          (deployOptions w) (trace w).

Definition with_drawn (n : nat) (w : World) : World :=
  mkWorld (objects w) (getFault w) (createFault w) (entropy w) n (operator w)
          (deployOptions w) (trace w).

Definition with_operator (l : list Key) (w : World) : World :=
  mkWorld (objects w) (getFault w) (createFault w) (entropy w) (drawn w) l
          (deployOptions w) (trace w).

Definition with_deployOptions (o : DeployOptions) (w : World) : World :=
  mkWorld (objects w) (getFault w) (createFault w) (entropy w) (drawn w)
          (operator w) o (trace w).

Definition record (e : Event) (w : World) : World :=
  mkWorld (objects w) (getFault w) (createFault w) (entropy w) (drawn w)
          (operator w) (deployOptions w) (trace w ++ [e]).

(** ** The monad of the package's functions *)

(** A call either returns, or the process stops inside it: [os.Exit], or
    a prompt that never gets an answer. *)
Inductive Stop :=
  | Exited (code : Z)
  | Hung.

Inductive Outcome (A : Type) :=
  | Ret (a : A) (w : World)
  | Halt (s : Stop) (w : World).

Arguments Ret {A} a w.
Arguments Halt {A} s w.

Definition M (A : Type) : Type := World -> Outcome A.

#[global] Instance M_ret : MRet M := fun A a w => Ret a w.

#[global] Instance M_bind : MBind M := fun A B f m w =>
  match m w with
  | Ret a w' => f a w'
  | Halt s w' => Halt s w'
  end.

(** The world a call leaves behind, however it ended. *)
Definition final {A} (o : Outcome A) : World :=
  match o with
  | Ret _ w => w
  | Halt _ w => w
  end.

(** The value a call returned, if it returned. *)
Definition returned {A} (o : Outcome A) : option A :=
  match o with
  | Ret a _ => Some a
  | Halt _ _ => None
  end.

(** The events a call added to the trace of the world [w] it started in. *)
Definition emitted {A} (w : World) (o : Outcome A) : list Event :=
  drop (length (trace w)) (trace (final o)).

Definition emit (e : Event) : M unit := fun w => Ret tt (record e w).

Definition getDeployOptions : M DeployOptions := fun w => Ret (deployOptions w) w.

Definition putDeployOptions (o : DeployOptions) : M unit :=
  fun w => Ret tt (with_deployOptions o w).

(** ** The collaborators *)

(** [crypto/rand]: one read of the process-wide random source. *)
Definition rand_Read : M (list Z) :=
  fun w => Ret (entropy w (drawn w)) (with_drawn (S (drawn w)) w).

(** *** github.com/google/uuid *)

Definition hexDigit (n : Z) : ascii :=
  match String.get (Z.to_nat n) "0123456789abcdef" with
  | Some c => c
  | None => "0"%char
  end.

Definition hexByte (b : Z) : string :=
  String (hexDigit (Z.shiftr (Z.land b 255) 4))
         (String (hexDigit (Z.land b 15)) "").

Definition encodeHex (l : list Z) : string :=
  foldr (fun b s => hexByte b +:+ s) "" l.

(** [uuid.New]: sixteen random bytes with the version-4 and variant bits
    set. *)
Definition uuid_fromBytes (b : list Z) : list Z :=
  alter (fun x => Z.lor (Z.land x 63) 128) 8%nat
    (alter (fun x => Z.lor (Z.land x 15) 64) 6%nat
       (take 16 (b ++ replicate 16 0))).

(** [UUID.String]: xxxxxxxx-xxxx-xxxx-xxxx-xxxxxxxxxxxx. *)
Definition uuid_String (u : list Z) : string :=
  encodeHex (take 4 u) +:+ "-" +:+
  encodeHex (take 2 (drop 4 u)) +:+ "-" +:+
  encodeHex (take 2 (drop 6 u)) +:+ "-" +:+
  encodeHex (take 2 (drop 8 u)) +:+ "-" +:+
  encodeHex (take 6 (drop 10 u)).

Definition uuid_New : M (list Z) :=
  b ← rand_Read;
  let u := uuid_fromBytes b in
  _ ← emit (EvUuid (uuid_String u));
  mret u.

(** *** The clientset *)

Definition NewNotFound (name : string) : error :=
  StatusError StatusReasonNotFound (name +:+ " not found").

Definition NewAlreadyExists (name : string) : error :=
  StatusError StatusReasonAlreadyExists (name +:+ " already exists").

Definition NewBadRequest : error :=
  StatusError StatusReasonBadRequest
    "the namespace of the provided object does not match the namespace sent on the request".

(** The API server's answer to a query for [k]: the fault of the key if it
    has one, else the stored object, else a not-found status error. *)
Definition apiserver_get (w : World) (k : ClusterResourceKey)
  : option Resource * option error :=
  match getFault w k with
  | Some e => (None, Some e)
  | None =>
      match objects w !! k with
      | Some obj => (Some obj, None)
      | None => (None, Some (NewNotFound k.2))
      end
  end.

(** Why the API server refuses to create [obj] under [k] in [namespace],
    if it does. *)
Definition apiserver_refuses (w : World) (k : ClusterResourceKey)
    (namespace : string) (obj : Resource) : option error :=
  if bool_decide (res_namespace obj = "" ∨ res_namespace obj = namespace) then
    match createFault w k with
    | Some e => Some e
    | None =>
        match objects w !! k with
        | Some _ => Some (NewAlreadyExists (res_name obj))
        | None => None
        end
    end
  else Some NewBadRequest.

(** [Get(name, metav1.GetOptions{})] of the typed client for [kind] in
    [namespace]. *)
Definition client_Get (kind : Kind) (namespace name : string)
  : M (option Resource * option error) := fun w =>
  let k := (kind, namespace, name) in
  let r := apiserver_get w k in
  Ret r (record (EvGet k r.2) w).

(** [Create(obj)] of the typed client for [kind] in [namespace].  The
    object is stored under its own name; the only change to the cluster is
    the stored object of a create that returned no error. *)
Definition client_Create (kind : Kind) (namespace : string) (obj : Resource)
  : M (option Resource * option error) := fun w =>
  let k := (kind, namespace, res_name obj) in
  match apiserver_refuses w k namespace obj with
  | Some e => Ret (None, Some e) (record (EvCreate k obj (Some e)) w)
  | None =>
      Ret (Some obj, None)
          (record (EvCreate k obj None) (with_objects (<[k:=obj]> (objects w)) w))
  end.

Definition Secrets_Get := client_Get KSecret.
Definition Secrets_Create := client_Create KSecret.
Definition ConfigMaps_Get := client_Get KConfigMap.
Definition ConfigMaps_Create := client_Create KConfigMap.
Definition StatefulSets_Get := client_Get KStatefulSet.
Definition StatefulSets_Create := client_Create KStatefulSet.
Definition Services_Get := client_Get KService.
Definition Services_Create := client_Create KService.
Definition Jobs_Get := client_Get KJob.
Definition Jobs_Create := client_Create KJob.

(** *** github.com/manifoldco/promptui *)

Definition promptui_ErrInterrupt : error := errorString "^C".
Definition promptui_ErrEOF : error := errorString "^D".

(** What [prompt.Run] returns when the operator ends a line with [key];
    [None] when it keeps the prompt open, which is what it does with a line
    that [validate] rejects. *)
Definition prompt_Run_on (validate : string -> option error) (key : Key)
  : option (string * option error) :=
  match key with
  | Enter line =>
      match validate line with
      | Some _ => None
      | None => Some (line, None)
      end
  | CtrlC => Some ("", Some promptui_ErrInterrupt)
  | CtrlD => Some ("", Some promptui_ErrEOF)
  end.

(** ** Resource builders *)

(** Modelled from the spec: the builders [jwtSecret], [pgSecret],
    [sharedPasswordSecret], [s3Secret], [minioConfigMap],
    [minioStatefulset], [minioService] and [minioJob] are defined in files
    of the package that are not part of the sources.  The spec has them
    pure and deterministic, "names are fixed constants per resource kind
    ... one reserved name per namespace", with "all variable material
    passed in": each returns the resource of its kind in the given
    namespace, under the reserved name its ensure-operation queries, with
    the material it was given. *)
Definition jwtSecret (namespace jwt : string) : Resource :=
  mkResource KSecret namespace "kotsadm-session" [jwt].

Definition pgSecret (namespace password : string) : Resource :=
  mkResource KSecret namespace "kotsadm-postgres" [password].

Definition sharedPasswordSecret (namespace bcryptPassword : string) : Resource :=
  mkResource KSecret namespace "kotsadm-password" [bcryptPassword].

Definition s3Secret (namespace accessKey secretKey : string) : Resource :=
  mkResource KSecret namespace "kotsadm-minio" [accessKey; secretKey].

Definition minioConfigMap (namespace : string) : Resource :=
  mkResource KConfigMap namespace "kotsadm-minio" [].

Definition minioStatefulset (namespace : string) : Resource :=
  mkResource KStatefulSet namespace "kotsadm-minio" [].

Definition minioService (namespace : string) : Resource :=
  mkResource KService namespace "kotsadm-minio" [].

Definition minioJob (namespace : string) : Resource :=
  mkResource KJob namespace "kotsadm-minio" [].

(** ** secrets.go: the operations that need no hashing *)

Definition ensureS3Secret (namespace : string) : M (option error) :=
  '(_, err) ← Secrets_Get namespace "kotsadm-minio";
  match err with
  | Some e =>
      if negb (IsNotFound e) then
        mret (errors_Wrap err "failed to get existing s3 secret")
      else
        accessKey ← uuid_New;
        secretKey ← uuid_New;
        '(_, err) ← Secrets_Create namespace
                      (s3Secret namespace (uuid_String accessKey) (uuid_String secretKey));
        match err with
        | Some _ => mret (errors_Wrap err "failed to create s3 secret")
        | None => mret None
        end
  | None => mret None
  end.

Definition ensureJWTSessionSecret (namespace : string) : M (option error) :=
  '(_, err) ← Secrets_Get namespace "kotsadm-session";
  match err with
  | Some e =>
      if negb (IsNotFound e) then
        mret (errors_Wrap err "failed to get existing session secret")
      else
        jwt ← uuid_New;
        '(_, err) ← Secrets_Create namespace (jwtSecret namespace (uuid_String jwt));
        match err with
        | Some _ => mret (errors_Wrap err "failed to create jwt session secret")
        | None => mret None
        end
  | None => mret None
  end.

(** Takes the options by value: it reads a copy. *)
Definition ensurePostgresSecret (deployOptions : DeployOptions) : M (option error) :=
  '(_, err) ← Secrets_Get (Namespace deployOptions) "kotsadm-postgres";
  match err with
  | Some e =>
      if negb (IsNotFound e) then
        mret (errors_Wrap err "failed to get existing postgres secret")
      else
        '(_, err) ← Secrets_Create (Namespace deployOptions)
                      (pgSecret (Namespace deployOptions) (PostgresPassword deployOptions));
        match err with
        | Some _ => mret (errors_Wrap err "failed to create postgres secret")
        | None => mret None
        end
  | None => mret None
  end.

(** ** minio.go: the apply path *)

Definition ensureMinioConfigMap (namespace : string) : M (option error) :=
  '(_, err) ← ConfigMaps_Get namespace "kotsadm-minio";
  match err with
  | Some e =>
      if negb (IsNotFound e) then
        mret (errors_Wrap err "failed to get existing config map")
      else
        '(_, err) ← ConfigMaps_Create namespace (minioConfigMap namespace);
        match err with
        | Some _ => mret (errors_Wrap err "failed to create configmap")
        | None => mret None
        end
  | None => mret None
  end.

Definition ensureMinioStatefulset (namespace : string) : M (option error) :=
  '(_, err) ← StatefulSets_Get namespace "kotsadm-minio";
  match err with
  | Some e =>
      if negb (IsNotFound e) then
        mret (errors_Wrap err "failed to get existing statefulset")
      else
        '(_, err) ← StatefulSets_Create namespace (minioStatefulset namespace);
        match err with
        | Some _ => mret (errors_Wrap err "failed to create minio statefulset")
        | None => mret None
        end
  | None => mret None
  end.

Definition ensureMinioService (namespace : string) : M (option error) :=
  '(_, err) ← Services_Get namespace "kotsadm-minio";
  match err with
  | Some e =>
      if negb (IsNotFound e) then
        mret (errors_Wrap err "failed to get existing service")
      else
        '(_, err) ← Services_Create namespace (minioService namespace);
        match err with
        | Some _ => mret (errors_Wrap err "failed to create service")
        | None => mret None
        end
  | None => mret None
  end.

Definition ensureMinioJob (namespace : string) : M (option error) :=
  '(_, err) ← Jobs_Get namespace "kotsadm-minio";
  match err with
  | Some e =>
      if negb (IsNotFound e) then
        mret (errors_Wrap err "failed to get existing job")
      else
        '(_, err) ← Jobs_Create namespace (minioJob namespace);
        match err with
        | Some _ => mret (errors_Wrap err "failed to create job")
        | None => mret None
        end
  | None => mret None
  end.

(** Go's [if err := step; err != nil { return errors.Wrap(err, message) }]
    followed by the rest of the function. *)
Definition orWrap (step : M (option error)) (message : string)
    (rest : M (option error)) : M (option error) :=
  err ← step;
  match err with
  | Some _ => mret (errors_Wrap err message)
  | None => rest
  end.

(** Takes the options by value. *)
Definition ensureMinio (deployOptions : DeployOptions) : M (option error) :=
  orWrap (ensureMinioConfigMap (Namespace deployOptions))
         "failed to ensure minio configmap"
  (orWrap (ensureMinioStatefulset (Namespace deployOptions))
          "failed to ensure minio statefulset"
  (orWrap (ensureMinioService (Namespace deployOptions))
          "failed to ensure minio service"
  (orWrap (ensureMinioJob (Namespace deployOptions))
          "failed to ensure minio job"
  (mret None)))).

(** ** The shared password *)

(** The [Validate] function of the password prompt; [len] counts bytes. *)
Definition validateSharedPassword (input : string) : option error :=
  if (String.length input <? 6)%nat
  then Some (errorString "please enter a longer password")
  else None.

(** [promptForSharedPassword]: the prompt is run again after any error
    but an interrupt, which exits the process.  [prompt.Run] itself stays
    open over a rejected line, so both loops advance over the same operator
    input and are one recursion over it; when the input runs out the prompt
    waits for ever. *)
Fixpoint promptForSharedPassword_on (input : list Key) : M (string * option error) :=
  fun w =>
  match input with
  | [] => Halt Hung w
  | key :: rest =>
      let w' := record (EvPrompt key) (with_operator rest w) in
      match prompt_Run_on validateSharedPassword key with
      | None => promptForSharedPassword_on rest w'
      | Some (result, Some err) =>
          if bool_decide (err = promptui_ErrInterrupt)
          then Halt (Exited (-1)) w'
          else promptForSharedPassword_on rest w'
      | Some (result, None) => Ret (result, None) w'
      end
  end.

Definition promptForSharedPassword : M (string * option error) :=
  fun w => promptForSharedPassword_on (operator w) w.

(** ** Vocabulary of the properties *)

(** The cluster state: what is stored and how the API server answers. *)
Definition cluster (w : World)
  : gmap ClusterResourceKey Resource * (ClusterResourceKey -> option error)
    * (ClusterResourceKey -> option error) :=
  (objects w, getFault w, createFault w).

Definition isClusterEvent (e : Event) : bool :=
  match e with
  | EvGet _ _ | EvCreate _ _ _ => true
  | _ => false
  end.

(** The calls to the API server among [evs]. *)
Definition clusterEvents (evs : list Event) : list Event :=
  List.filter isClusterEvent evs.

Definition isCreate (e : Event) : bool :=
  match e with
  | EvCreate _ _ _ => true
  | _ => false
  end.

(** A create of [k] that the API server accepted. *)
Definition createdAt (k : ClusterResourceKey) (e : Event) : bool :=
  match e with
  | EvCreate k' _ None => bool_decide (k' = k)
  | _ => false
  end.

(** How many times [k] was created among [evs]. *)
Definition creations (k : ClusterResourceKey) (evs : list Event) : nat :=
  length (List.filter (createdAt k) evs).

(** The error of a call that the package treats as fatal: any error of a
    create, of the hash function or of the serializer, and any error of a
    query but not-found. *)
Definition failure (e : Event) : option error :=
  match e with
  | EvGet _ (Some err) => if IsNotFound err then None else Some err
  | EvCreate _ _ (Some err) => Some err
  | EvBcrypt _ (Some err) => Some err
  | EvEncode _ (Some err) => Some err
  | _ => None
  end.

(** [Wraps e err]: [err] is [e] under some layers of [errors.Wrap]. *)
Inductive Wraps (e : error) : error -> Prop :=
  | Wraps_here : Wraps e e
  | Wraps_more err msg : Wraps e err -> Wraps e (withMessage err msg).

(** The shape the eight ensure-operations share: query the reserved name,
    and only on not-found build the resource and create it. *)
Definition ensureWith (kind : Kind) (namespace name : string)
    (getMessage createMessage : string) (build : M Resource) : M (option error) :=
  '(_, err) ← client_Get kind namespace name;
  match err with
  | Some e =>
      if negb (IsNotFound e) then mret (errors_Wrap err getMessage)
      else
        obj ← build;
        '(_, err) ← client_Create kind namespace obj;
        match err with
        | Some _ => mret (errors_Wrap err createMessage)
        | None => mret None
        end
  | None => mret None
  end.

(** An ensure-operation with the arguments it is called with;
    [ensureSharedPasswordSecret] reads its namespace through the pointer. *)
Inductive EnsureCall :=
  | CallJWTSessionSecret (namespace : string)
  | CallPostgresSecret (deployOptions : DeployOptions)
  | CallSharedPasswordSecret
  | CallS3Secret (namespace : string)
  | CallMinioConfigMap (namespace : string)
  | CallMinioStatefulset (namespace : string)
  | CallMinioService (namespace : string)
  | CallMinioJob (namespace : string).

(** The [ClusterResourceKey] a call is about. *)
Definition callKey (c : EnsureCall) (w : World) : ClusterResourceKey :=
  match c with
  | CallJWTSessionSecret ns => (KSecret, ns, "kotsadm-session")
  | CallPostgresSecret o => (KSecret, Namespace o, "kotsadm-postgres")
  | CallSharedPasswordSecret => (KSecret, Namespace (deployOptions w), "kotsadm-password")
  | CallS3Secret ns => (KSecret, ns, "kotsadm-minio")
  | CallMinioConfigMap ns => (KConfigMap, ns, "kotsadm-minio")
  | CallMinioStatefulset ns => (KStatefulSet, ns, "kotsadm-minio")
  | CallMinioService ns => (KService, ns, "kotsadm-minio")
  | CallMinioJob ns => (KJob, ns, "kotsadm-minio")
  end.

(** The message a call wraps a failed query in. *)
Definition getMessage (c : EnsureCall) : string :=
  match c with
  | CallJWTSessionSecret _ => "failed to get existing session secret"
  | CallPostgresSecret _ => "failed to get existing postgres secret"
  | CallSharedPasswordSecret => "failed to get existing password secret"
  | CallS3Secret _ => "failed to get existing s3 secret"
  | CallMinioConfigMap _ => "failed to get existing config map"
  | CallMinioStatefulset _ => "failed to get existing statefulset"
  | CallMinioService _ => "failed to get existing service"
  | CallMinioJob _ => "failed to get existing job"
  end.

(** Events that neither reach the API server nor fail. *)
Definition Quiet (evs : list Event) : Prop :=
  Forall (fun e => isClusterEvent e = false ∧ failure e = None) evs.

(** [n] more reads of the random source and [evs] more events. *)
Definition advance (n : nat) (evs : list Event) (w : World) : World :=
  mkWorld (objects w) (getFault w) (createFault w) (entropy w) (n + drawn w)
          (operator w) (deployOptions w) (trace w ++ evs).

(** The world after the operator typed [typed], with [rest] still to come. *)
Definition prompted (typed rest : list Key) (w : World) : World :=
  mkWorld (objects w) (getFault w) (createFault w) (entropy w) (drawn w)
          rest (deployOptions w) (trace w ++ map EvPrompt typed).

(** What a builder with inline defaults does: it returns the resource of
    the reserved name, and on the way only draws identifiers. *)
Definition Builds (kind : Kind) (namespace name : string) (build : M Resource) : Prop :=
  ∀ w, ∃ n evs payload,
    build w = Ret (mkResource kind namespace name payload) (advance n evs w)
    ∧ Quiet evs.

(** What the apply path leaves alone: the API server's faults, the random
    source, every stored object, every field of the options but the
    plaintext password, and that one too once it is set. *)
Definition ApplyFrame (w w' : World) : Prop :=
  getFault w' = getFault w
  ∧ createFault w' = createFault w
  ∧ entropy w' = entropy w
  ∧ objects w ⊆ objects w'
  ∧ (∃ evs, trace w' = trace w ++ evs)
  ∧ set_SharedPassword "" (deployOptions w') = set_SharedPassword "" (deployOptions w)
  ∧ (SharedPassword (deployOptions w) = ""
     ∨ SharedPassword (deployOptions w') = SharedPassword (deployOptions w)).

(** The key a resource definition is stored under. *)
Definition resourceKey (obj : Resource) : ClusterResourceKey :=
  (res_kind obj, res_namespace obj, res_name obj).

(** The ways one ensure-operation can go. *)
Inductive Shape := Halted | Refused | Present | Fatal | Created | CreateFailed.

(** Whether the operation got as far as its query. *)
Definition queried (sh : Shape) : bool :=
  match sh with
  | Halted | Refused => false
  | _ => true
  end.

(** How one ensure-operation on [k] went, read off the world [w] it
    started in and its outcome. *)
Inductive EnsureRun (k : ClusterResourceKey) (getMsg : string) (w : World)
  : Shape -> Outcome (option error) -> Prop :=
  | run_halted s w' evs :
      objects w' = objects w ->
      trace w' = trace w ++ evs ->
      Quiet evs ->
      EnsureRun k getMsg w Halted (Halt s w')
  | run_refused w' pre pw e :
      objects w' = objects w ->
      trace w' = trace w ++ pre ++ [EvBcrypt pw (Some e)] ->
      Quiet pre ->
      EnsureRun k getMsg w Refused
        (Ret (Some (withMessage e "failed to bcrypt shared password")) w')
  | run_present w' pre obj :
      apiserver_get w k = (Some obj, None) ->
      objects w' = objects w ->
      trace w' = trace w ++ pre ++ [EvGet k None] ->
      Quiet pre ->
      EnsureRun k getMsg w Present (Ret None w')
  | run_fatal w' pre e :
      apiserver_get w k = (None, Some e) ->
      IsNotFound e = false ->
      objects w' = objects w ->
      trace w' = trace w ++ pre ++ [EvGet k (Some e)] ->
      Quiet pre ->
      EnsureRun k getMsg w Fatal (Ret (Some (withMessage e getMsg)) w')
  | run_created w' pre mid e obj :
      apiserver_get w k = (None, Some e) ->
      IsNotFound e = true ->
      resourceKey obj = k ->
      apiserver_refuses w k k.1.2 obj = None ->
      objects w' = <[k:=obj]> (objects w) ->
      trace w' = trace w ++ pre ++ EvGet k (Some e) :: mid ++ [EvCreate k obj None] ->
      Quiet pre ->
      Quiet mid ->
      EnsureRun k getMsg w Created (Ret None w')
  | run_create_failed w' pre mid e obj e' msg :
      apiserver_get w k = (None, Some e) ->
      IsNotFound e = true ->
      resourceKey obj = k ->
      apiserver_refuses w k k.1.2 obj = Some e' ->
      objects w' = objects w ->
      trace w' = trace w ++ pre ++ EvGet k (Some e) :: mid ++ [EvCreate k obj (Some e')] ->
      Quiet pre ->
      Quiet mid ->
      EnsureRun k getMsg w CreateFailed (Ret (Some (withMessage e' msg)) w').

(** No failed call among [evs]. *)
Definition NoFailure (evs : list Event) : Prop :=
  Forall (fun e => failure e = None) evs.

(** How a pass of ensure-operations went: it came through or the process
    stopped, with no failed call; or it returned an error, the failed call
    is the last one made, and the error is that call's, wrapped. *)
Inductive PassRun (w : World) : Outcome (option error) -> Prop :=
  | pass_done w' evs :
      trace w' = trace w ++ evs ->
      NoFailure evs ->
      PassRun w (Ret None w')
  | pass_halted s w' evs :
      trace w' = trace w ++ evs ->
      NoFailure evs ->
      PassRun w (Halt s w')
  | pass_failed w' pre ev e err :
      trace w' = trace w ++ pre ++ [ev] ->
      NoFailure pre ->
      failure ev = Some e ->
      Wraps e err ->
      PassRun w (Ret (Some err) w').

(** A pass fails fast: a failed call is the last call, whatever failed
    comes back wrapped and nothing else does, and no stored object is
    taken away. *)
Definition FailsFast (m : M (option error)) : Prop :=
  ∀ w,
    (∀ pre ev post e,
        emitted w (m w) = pre ++ ev :: post ->
        failure ev = Some e ->
        post = [] ∧ ∃ err, returned (m w) = Some (Some err) ∧ Wraps e err)
    ∧ (∀ err,
        returned (m w) = Some (Some err) ->
        ∃ pre ev e, emitted w (m w) = pre ++ [ev] ∧ failure ev = Some e ∧ Wraps e err)
    ∧ objects w ⊆ objects (final (m w)).


(** Whether a call to the API server is about [k]. *)
Definition touches (k : ClusterResourceKey) (e : Event) : bool :=
  match e with
  | EvGet k' _ | EvCreate k' _ _ => bool_decide (k' = k)
  | _ => false
  end.


Definition isBcrypt (e : Event) : bool :=
  match e with
  | EvBcrypt _ _ => true
  | _ => false
  end.

(** How many times the hash function was called among [evs]. *)
Definition bcryptCalls (evs : list Event) : nat :=
  length (List.filter isBcrypt evs).

Definition isUuid (e : Event) : bool :=
  match e with
  | EvUuid _ => true
  | _ => false
  end.

(** How many identifiers were generated among [evs]. *)
Definition uuidDraws (evs : list Event) : nat :=
  length (List.filter isUuid evs).

(** How many fields of [l] are empty. *)
Definition emptyFields (l : list string) : nat :=
  length (List.filter (fun s => bool_decide (s = "")) l).

(** How a render went: all documents, or no document and the error of the
    failed call, which is the last call made. *)
Inductive RenderRun (names : gset string) (w : World)
  : Outcome (option (gmap string string) * option error) -> Prop :=
  | render_done w' docs evs :
      trace w' = trace w ++ evs ->
      NoFailure evs ->
      dom docs = names ->
      RenderRun names w (Ret (Some docs, None) w')
  | render_failed w' pre ev e err :
      trace w' = trace w ++ pre ++ [ev] ->
      NoFailure pre ->
      failure ev = Some e ->
      Wraps e err ->
      RenderRun names w (Ret (None, Some err) w').

(** The options need no generation: hash and both S3 keys are there. *)
Definition settled (o : DeployOptions) : Prop :=
  SharedPasswordBcrypt o ≠ "" ∧ S3SecretKey o ≠ "" ∧ S3AccessKey o ≠ "".


(** The error of the last call of [evs], if that is the only failed one. *)
Fixpoint lastFailure (evs : list Event) : option error :=
  match evs with
  | [] => None
  | [ev] => failure ev
  | ev :: rest =>
      match failure ev with
      | Some _ => None
      | None => lastFailure rest
      end
  end.


Section Provisioning.

#[local] Set Default Proof Using "Type".

(** [golang.org/x/crypto/bcrypt] and the YAML serializer of the API
    machinery are taken as they come: which passwords the hash function
    refuses, the digest it computes from cost, salt and password, and
    what the serializer makes of a resource. *)
Variable bcryptReject : string -> option error.
Variable bcryptDigest : Z -> list Z -> string -> string.
Variable yamlEncode : Resource -> string * option error.

(** [bcrypt.GenerateFromPassword]: a refused password is an error and no
    hash; otherwise a salt is drawn and the hash starts with the version
    tag. *)
Definition bcrypt_GenerateFromPassword (password : string) (cost : Z)
  : M (string * option error) :=
  match bcryptReject password with
  | Some e =>
      _ ← emit (EvBcrypt password (Some e));
      mret ("", Some e)
  | None =>
      salt ← rand_Read;
      _ ← emit (EvBcrypt password None);
      mret ("$2a$" +:+ bcryptDigest cost salt password, None)
  end.

(** [s.Encode(obj, &buf)] followed by [buf.Bytes()]. *)
Definition Encode (obj : Resource) : M (string * option error) :=
  let r := yamlEncode obj in
  _ ← emit (EvEncode obj r.2);
  mret r.

Definition ensureSharedPasswordSecret : M (option error) :=
  deployOptions ← getDeployOptions;
  let hashAndEnsure : M (option error) :=
    deployOptions ← getDeployOptions;
    '(bcryptPassword, err) ← bcrypt_GenerateFromPassword (SharedPassword deployOptions) 10;
    match err with
    | Some _ => mret (errors_Wrap err "failed to bcrypt shared password")
    | None =>
        '(_, err) ← Secrets_Get (Namespace deployOptions) "kotsadm-password";
        match err with
        | Some e =>
            if negb (IsNotFound e) then
              mret (errors_Wrap err "failed to get existing password secret")
            else
              '(_, err) ← Secrets_Create (Namespace deployOptions)
                            (sharedPasswordSecret (Namespace deployOptions) bcryptPassword);
              match err with
              | Some _ => mret (errors_Wrap err "failed to create password secret")
              | None => mret None
              end
        | None => mret None
        end
    end in
  if bool_decide (SharedPassword deployOptions = "") then
    '(sharedPassword, err) ← promptForSharedPassword;
    match err with
    | Some _ => mret (errors_Wrap err "failed to prompt for shared password")
    | None =>
        _ ← putDeployOptions (set_SharedPassword sharedPassword deployOptions);
        hashAndEnsure
    end
  else hashAndEnsure.

Definition ensureSecrets : M (option error) :=
  deployOptions ← getDeployOptions;
  orWrap (ensureJWTSessionSecret (Namespace deployOptions))
         "failed to ensure jwt session secret"
  (deployOptions ← getDeployOptions;
   orWrap (ensurePostgresSecret deployOptions)
          "failed to ensure postgres secret"
  (orWrap ensureSharedPasswordSecret
          "failed to ensure shared password secret"
  (deployOptions ← getDeployOptions;
   orWrap (ensureS3Secret (Namespace deployOptions))
          "failed to ensure s3 secret"
  (mret None)))).

(** Modelled from the spec: the provisioning orchestrator, the caller of
    [ensureSecrets] and [ensureMinio], is not part of the sources.  The
    spec: "Sequences: ensure-credentials group, then
    ensure-storage-service group.  Stops at first failure and reports it
    wrapped with which group/resource failed." *)
Definition provision : M (option error) :=
  orWrap ensureSecrets "failed to ensure secrets"
  (deployOptions ← getDeployOptions;
   orWrap (ensureMinio deployOptions) "failed to ensure minio"
  (mret None)).

(** ** The render path *)

Definition getSecretsYAML : M (option (gmap string string) * option error) :=
  let docs : gmap string string := ∅ in
  deployOptions ← getDeployOptions;
  '(jwt, err) ← Encode (jwtSecret (Namespace deployOptions) (JWT deployOptions));
  match err with
  | Some _ => mret (None, errors_Wrap err "failed to marshal jwt secret")
  | None =>
  let docs := <["secret-jwt.yaml" := jwt]> docs in
  '(pg, err) ← Encode (pgSecret (Namespace deployOptions) (PostgresPassword deployOptions));
  match err with
  | Some _ => mret (None, errors_Wrap err "failed to marshal pg secret")
  | None =>
  let docs := <["secret-pg.yaml" := pg]> docs in
  let afterHash : M (option (gmap string string) * option error) :=
    deployOptions ← getDeployOptions;
    '(sharedPassword, err) ← Encode (sharedPasswordSecret (Namespace deployOptions)
                                        (SharedPasswordBcrypt deployOptions));
    match err with
    | Some _ => mret (None, errors_Wrap err "failed to marshal shared password secret")
    | None =>
    let docs := <["secret-shared-password.yaml" := sharedPassword]> docs in
    _ ← (if bool_decide (S3SecretKey deployOptions = "") then
           u ← uuid_New;
           deployOptions ← getDeployOptions;
           putDeployOptions (set_S3SecretKey (uuid_String u) deployOptions)
         else mret tt);
    deployOptions ← getDeployOptions;
    _ ← (if bool_decide (S3AccessKey deployOptions = "") then
           u ← uuid_New;
           deployOptions ← getDeployOptions;
           putDeployOptions (set_S3AccessKey (uuid_String u) deployOptions)
         else mret tt);
    deployOptions ← getDeployOptions;
    '(s3, err) ← Encode (s3Secret (Namespace deployOptions) (S3AccessKey deployOptions)
                            (S3SecretKey deployOptions));
    match err with
    | Some _ => mret (None, errors_Wrap err "failed to marshal s3 secret")
    | None =>
    let docs := <["secret-s3.yaml" := s3]> docs in
    mret (Some docs, None)
    end
    end in
  if bool_decide (SharedPasswordBcrypt deployOptions = "") then
    '(bcryptPassword, err) ← bcrypt_GenerateFromPassword (SharedPassword deployOptions) 10;
    match err with
    | Some _ => mret (None, errors_Wrap err "failed to bcrypt shared password")
    | None =>
        _ ← putDeployOptions (set_SharedPasswordBcrypt bcryptPassword deployOptions);
        afterHash
    end
  else afterHash
  end
  end.

Definition getMinioYAML (namespace : string)
  : M (option (gmap string string) * option error) :=
  let docs : gmap string string := ∅ in
  '(configMap, err) ← Encode (minioConfigMap namespace);
  match err with
  | Some _ => mret (None, errors_Wrap err "failed to marshal minio config map")
  | None =>
  let docs := <["minio-configmap.yaml" := configMap]> docs in
  '(statefulset, err) ← Encode (minioStatefulset namespace);
  match err with
  | Some _ => mret (None, errors_Wrap err "failed to marshal minio statefulset")
  | None =>
  let docs := <["minio-statefulset.yaml" := statefulset]> docs in
  '(service, err) ← Encode (minioService namespace);
  match err with
  | Some _ => mret (None, errors_Wrap err "failed to marshal minio service")
  | None =>
  let docs := <["minio-service.yaml" := service]> docs in
  '(job, err) ← Encode (minioJob namespace);
  match err with
  | Some _ => mret (None, errors_Wrap err "failed to marshal minio job")
  | None =>
  let docs := <["minio-job.yaml" := job]> docs in
  mret (Some docs, None)
  end
  end
  end
  end.

(** The four secrets in the order [getSecretsYAML] encodes them, each
    with the name of its document and the message of its failure. *)
Definition secretDocuments (o : DeployOptions) : list (string * Resource * string) :=
  [("secret-jwt.yaml", jwtSecret (Namespace o) (JWT o),
    "failed to marshal jwt secret");
   ("secret-pg.yaml", pgSecret (Namespace o) (PostgresPassword o),
    "failed to marshal pg secret");
   ("secret-shared-password.yaml",
    sharedPasswordSecret (Namespace o) (SharedPasswordBcrypt o),
    "failed to marshal shared password secret");
   ("secret-s3.yaml", s3Secret (Namespace o) (S3AccessKey o) (S3SecretKey o),
    "failed to marshal s3 secret")].

Definition minioDocuments (namespace : string) : list (string * Resource * string) :=
  [("minio-configmap.yaml", minioConfigMap namespace,
    "failed to marshal minio config map");
   ("minio-statefulset.yaml", minioStatefulset namespace,
    "failed to marshal minio statefulset");
   ("minio-service.yaml", minioService namespace,
    "failed to marshal minio service");
   ("minio-job.yaml", minioJob namespace,
    "failed to marshal minio job")].

(** What encoding [items] one after the other into [docs] comes to: the
    finished map, or no map and the first error, wrapped. *)
Fixpoint encodeAll (items : list (string * Resource * string))
    (docs : gmap string string) : option (gmap string string) * option error :=
  match items with
  | [] => (Some docs, None)
  | (name, obj, msg) :: rest =>
      match yamlEncode obj with
      | (_, Some e) => (None, Some (withMessage e msg))
      | (bytes, None) => encodeAll rest (<[name := bytes]> docs)
      end
  end.

(** The calls to the serializer that go with it. *)
Fixpoint encodeEvents (items : list (string * Resource * string)) : list Event :=
  match items with
  | [] => []
  | (_, obj, _) :: rest =>
      EvEncode obj (yamlEncode obj).2 ::
      match (yamlEncode obj).2 with
      | Some _ => []
      | None => encodeEvents rest
      end
  end.

(** ** Calls and sequences of calls *)

Definition invoke (c : EnsureCall) : M (option error) :=
  match c with
  | CallJWTSessionSecret ns => ensureJWTSessionSecret ns
  | CallPostgresSecret o => ensurePostgresSecret o
  | CallSharedPasswordSecret => ensureSharedPasswordSecret
  | CallS3Secret ns => ensureS3Secret ns
  | CallMinioConfigMap ns => ensureMinioConfigMap ns
  | CallMinioStatefulset ns => ensureMinioStatefulset ns
  | CallMinioService ns => ensureMinioService ns
  | CallMinioJob ns => ensureMinioJob ns
  end.

(** Any calls one after the other, whatever each returns. *)
Fixpoint invokeAll (cs : list EnsureCall) : M (list (option error)) :=
  match cs with
  | [] => mret []
  | c :: cs' =>
      err ← invoke c;
      errs ← invokeAll cs';
      mret (err :: errs)
  end.

(** ** Worlds, traces and the bind *)

Lemma bind_eq {A B} (m : M A) (f : A -> M B) (w : World) :
  (m ≫= f) w = match m w with
               | Ret a w' => f a w'
               | Halt s w' => Halt s w'
               end.
Proof. reflexivity. Qed.

Lemma emitted_app {A} (w : World) (o : Outcome A) (evs : list Event) :
  trace (final o) = trace w ++ evs -> emitted w o = evs.
Proof.
  intros H. unfold emitted. rewrite H. apply drop_app_length.
Qed.

Lemma Quiet_nil : Quiet [].
Proof. constructor. Qed.

Lemma Quiet_app (l1 l2 : list Event) : Quiet l1 -> Quiet l2 -> Quiet (l1 ++ l2).
Proof. unfold Quiet. intros. by apply Forall_app. Qed.

Lemma Quiet_clusterEvents (l : list Event) : Quiet l -> clusterEvents l = [].
Proof.
  induction 1 as [|e l [He _] _ IH]; [done|].
  unfold clusterEvents in *. simpl. by rewrite He.
Qed.

Lemma Quiet_creations (k : ClusterResourceKey) (l : list Event) :
  Quiet l -> creations k l = 0%nat.
Proof.
  unfold creations. induction 1 as [|e l [He _] _ IH]; [done|].
  simpl. destruct e; try done.
Qed.

Lemma creations_app (k : ClusterResourceKey) (l1 l2 : list Event) :
  creations k (l1 ++ l2) = (creations k l1 + creations k l2)%nat.
Proof. unfold creations. by rewrite List.filter_app, length_app. Qed.

Lemma clusterEvents_app (l1 l2 : list Event) :
  clusterEvents (l1 ++ l2) = clusterEvents l1 ++ clusterEvents l2.
Proof. apply List.filter_app. Qed.

Lemma ApplyFrame_refl (w : World) : ApplyFrame w w.
Proof.
  repeat split; try done.
  - exists []. by rewrite app_nil_r.
  - by right.
Qed.

Lemma ApplyFrame_trans (w1 w2 w3 : World) :
  ApplyFrame w1 w2 -> ApplyFrame w2 w3 -> ApplyFrame w1 w3.
Proof.
  intros (Hg & Hc & He & Ho & [evs Ht] & Hd & Hp) (Hg' & Hc' & He' & Ho' & [evs' Ht'] & Hd' & Hp').
  repeat split; try congruence.
  - by etrans.
  - exists (evs ++ evs'). by rewrite Ht', Ht, app_assoc.
  - destruct Hp as [Hp|Hp]; [by left|].
    destruct Hp' as [Hp'|Hp']; [left|right]; congruence.
Qed.

Lemma ApplyFrame_bind {A B} (m : M A) (f : A -> M B) (w : World) :
  ApplyFrame w (final (m w)) ->
  (∀ a w', m w = Ret a w' -> ApplyFrame w' (final (f a w'))) ->
  ApplyFrame w (final ((m ≫= f) w)).
Proof.
  intros Hm Hf. rewrite bind_eq. destruct (m w) as [a w'|s w'] eqn:E; [|done].
  eapply ApplyFrame_trans; [exact Hm|]. by apply Hf.
Qed.

Lemma ApplyFrame_advance (n : nat) (evs : list Event) (w : World) :
  ApplyFrame w (advance n evs w).
Proof.
  repeat split; try done; simpl; [by exists evs | by right].
Qed.

Lemma ApplyFrame_record (e : Event) (w : World) : ApplyFrame w (record e w).
Proof.
  repeat split; try done; simpl; [by exists [e] | by right].
Qed.


(** ** The API server *)

Lemma apiserver_get_cases (w : World) (k : ClusterResourceKey) :
  (∃ obj, apiserver_get w k = (Some obj, None)
          ∧ getFault w k = None ∧ objects w !! k = Some obj)
  ∨ (∃ e, apiserver_get w k = (None, Some e)
          ∧ (getFault w k = Some e
             ∨ getFault w k = None ∧ objects w !! k = None ∧ e = NewNotFound k.2)).
Proof.
  unfold apiserver_get.
  destruct (getFault w k) as [e|]; [right; eauto|].
  destruct (objects w !! k) as [obj|]; [left; eauto|right; eauto 10].
Qed.

Lemma apiserver_get_same (w w' : World) (k : ClusterResourceKey) :
  getFault w' = getFault w -> objects w' = objects w ->
  apiserver_get w' k = apiserver_get w k.
Proof. unfold apiserver_get. by intros -> ->. Qed.

Lemma apiserver_refuses_same (w w' : World) (k : ClusterResourceKey)
    (ns : string) (obj : Resource) :
  createFault w' = createFault w -> objects w' = objects w ->
  apiserver_refuses w' k ns obj = apiserver_refuses w k ns obj.
Proof. unfold apiserver_refuses. by intros -> ->. Qed.

Lemma apiserver_accepts (w : World) (k : ClusterResourceKey) (ns : string)
    (obj : Resource) :
  apiserver_refuses w k ns obj = None ->
  createFault w k = None ∧ objects w !! k = None.
Proof.
  unfold apiserver_refuses. case_bool_decide; [|done].
  destruct (createFault w k); [done|]. by destruct (objects w !! k).
Qed.

(** A refusal does not depend on the material in the object, only on where
    it goes. *)
Lemma apiserver_refuses_again (w : World) (k : ClusterResourceKey) (ns : string)
    (obj obj' : Resource) (e : error) :
  resourceKey obj = k -> resourceKey obj' = k ->
  apiserver_refuses w k ns obj = Some e ->
  is_Some (apiserver_refuses w k ns obj').
Proof.
  unfold apiserver_refuses, resourceKey. intros <- [= _ Hns Hname]. rewrite Hns.
  case_bool_decide; [|by eauto].
  destruct (createFault w _); [by eauto|].
  destruct (objects w !! _); [by eauto|done].
Qed.

(** ** The shared shape *)

Lemma ensureWith_run (kind : Kind) (ns name gm cm : string) (build : M Resource)
    (w : World) :
  Builds kind ns name build ->
  ∃ sh, queried sh = true
        ∧ EnsureRun (kind, ns, name) gm w sh (ensureWith kind ns name gm cm build w).
Proof.
  intros Hb. unfold ensureWith. rewrite bind_eq. unfold client_Get. simpl.
  destruct (apiserver_get_cases w (kind, ns, name)) as [(obj & Hget & _)|(e & Hget & _)];
    rewrite Hget; simpl.
  { exists Present. split; [done|].
    eapply (run_present _ _ _ _ []); eauto using Quiet_nil. }
  destruct (IsNotFound e) eqn:Hnf; simpl.
  2:{ exists Fatal. split; [done|].
      eapply (run_fatal _ _ _ _ []); eauto using Quiet_nil. }
  rewrite bind_eq.
  destruct (Hb (record (EvGet (kind, ns, name) (Some e)) w)) as (n & evs & payload & -> & Hq).
  rewrite bind_eq. unfold client_Create. simpl.
  destruct (apiserver_refuses _ _ _ _) as [e'|] eqn:Hc; simpl.
  - exists CreateFailed. split; [done|].
    eapply (run_create_failed _ _ _ _ [] evs); eauto using Quiet_nil; [done|].
    simpl. by rewrite <- !app_assoc.
  - exists Created. split; [done|].
    eapply (run_created _ _ _ _ [] evs); eauto using Quiet_nil; [done|].
    simpl. by rewrite <- !app_assoc.
Qed.

Lemma ensureWith_frame (kind : Kind) (ns name gm cm : string) (build : M Resource)
    (w : World) :
  Builds kind ns name build ->
  ApplyFrame w (final (ensureWith kind ns name gm cm build w))
  ∧ deployOptions (final (ensureWith kind ns name gm cm build w)) = deployOptions w
  ∧ operator (final (ensureWith kind ns name gm cm build w)) = operator w.
Proof.
  intros Hb. unfold ensureWith. rewrite bind_eq. unfold client_Get. simpl.
  destruct (apiserver_get w (kind, ns, name)) as [o [e|]]; simpl;
    [|by eauto using ApplyFrame_record].
  destruct (IsNotFound e); simpl; [|by eauto using ApplyFrame_record].
  rewrite bind_eq.
  destruct (Hb (record (EvGet (kind, ns, name) (Some e)) w)) as (n & evs & payload & -> & Hq).
  rewrite bind_eq. unfold client_Create. simpl.
  destruct (apiserver_refuses _ _ _ _) as [e'|] eqn:Hc; simpl.
  - split; [|done].
    repeat split; simpl; try done; [|by right].
    exists ([EvGet (kind, ns, name) (Some e)] ++ evs ++ [EvCreate (kind, ns, name) (mkResource kind ns name payload) (Some e')]).
    by rewrite <- !app_assoc.
  - split; [|done].
    apply apiserver_accepts in Hc as [_ Hc]. simpl in Hc.
    repeat split; simpl; try done; [by apply insert_subseteq | | by right].
    exists ([EvGet (kind, ns, name) (Some e)] ++ evs ++ [EvCreate (kind, ns, name) (mkResource kind ns name payload) None]).
    by rewrite <- !app_assoc.
Qed.


(** ** Inline defaults *)

Lemma uuid_New_eq (w : World) :
  uuid_New w =
  Ret (uuid_fromBytes (entropy w (drawn w)))
      (advance 1 [EvUuid (uuid_String (uuid_fromBytes (entropy w (drawn w))))] w).
Proof. reflexivity. Qed.

Lemma Quiet_uuid (u : string) : Quiet [EvUuid u].
Proof. by repeat constructor. Qed.

Lemma Builds_pure (obj : Resource) :
  Builds (res_kind obj) (res_namespace obj) (res_name obj) (mret obj).
Proof.
  intros w. exists 0%nat, [], (res_payload obj). split; [|apply Quiet_nil].
  destruct obj, w. unfold advance. simpl. by rewrite app_nil_r.
Qed.

Lemma Builds_jwt (ns : string) :
  Builds KSecret ns "kotsadm-session"
    (jwt ← uuid_New; mret (jwtSecret ns (uuid_String jwt))).
Proof.
  intros w. eexists 1%nat, [_], _. split; [reflexivity|apply Quiet_uuid].
Qed.

Lemma Builds_s3 (ns : string) :
  Builds KSecret ns "kotsadm-minio"
    (accessKey ← uuid_New; secretKey ← uuid_New;
     mret (s3Secret ns (uuid_String accessKey) (uuid_String secretKey))).
Proof.
  intros w. eexists 2%nat, [_; _], _. split.
  - rewrite bind_eq, uuid_New_eq, bind_eq, uuid_New_eq. simpl.
    unfold advance. simpl. by rewrite <- app_assoc.
  - apply (Quiet_app [_] [_]); apply Quiet_uuid.
Qed.

(** ** Each operation has the shared shape *)

Lemma ensureS3Secret_shape (ns : string) (w : World) :
  ensureS3Secret ns w =
  ensureWith KSecret ns "kotsadm-minio"
    "failed to get existing s3 secret" "failed to create s3 secret"
    (accessKey ← uuid_New; secretKey ← uuid_New;
     mret (s3Secret ns (uuid_String accessKey) (uuid_String secretKey))) w.
Proof. reflexivity. Qed.

Lemma ensureJWTSessionSecret_shape (ns : string) (w : World) :
  ensureJWTSessionSecret ns w =
  ensureWith KSecret ns "kotsadm-session"
    "failed to get existing session secret" "failed to create jwt session secret"
    (jwt ← uuid_New; mret (jwtSecret ns (uuid_String jwt))) w.
Proof. reflexivity. Qed.

Lemma ensurePostgresSecret_shape (o : DeployOptions) (w : World) :
  ensurePostgresSecret o w =
  ensureWith KSecret (Namespace o) "kotsadm-postgres"
    "failed to get existing postgres secret" "failed to create postgres secret"
    (mret (pgSecret (Namespace o) (PostgresPassword o))) w.
Proof. reflexivity. Qed.

Lemma ensureMinioConfigMap_shape (ns : string) (w : World) :
  ensureMinioConfigMap ns w =
  ensureWith KConfigMap ns "kotsadm-minio"
    "failed to get existing config map" "failed to create configmap"
    (mret (minioConfigMap ns)) w.
Proof. reflexivity. Qed.

Lemma ensureMinioStatefulset_shape (ns : string) (w : World) :
  ensureMinioStatefulset ns w =
  ensureWith KStatefulSet ns "kotsadm-minio"
    "failed to get existing statefulset" "failed to create minio statefulset"
    (mret (minioStatefulset ns)) w.
Proof. reflexivity. Qed.

Lemma ensureMinioService_shape (ns : string) (w : World) :
  ensureMinioService ns w =
  ensureWith KService ns "kotsadm-minio"
    "failed to get existing service" "failed to create service"
    (mret (minioService ns)) w.
Proof. reflexivity. Qed.

Lemma ensureMinioJob_shape (ns : string) (w : World) :
  ensureMinioJob ns w =
  ensureWith KJob ns "kotsadm-minio"
    "failed to get existing job" "failed to create job"
    (mret (minioJob ns)) w.
Proof. reflexivity. Qed.


(** ** The prompt *)

Lemma validateSharedPassword_nonempty (line : string) :
  validateSharedPassword line = None -> line ≠ "".
Proof. by intros H ->. Qed.

Lemma Quiet_prompt (typed : list Key) : Quiet (map EvPrompt typed).
Proof. induction typed; by constructor. Qed.

Lemma prompted_cons (key : Key) (typed rest rest' : list Key) (w : World) :
  prompted typed rest (record (EvPrompt key) (with_operator rest' w))
  = prompted (key :: typed) rest w.
Proof. unfold prompted. simpl. by rewrite <- app_assoc. Qed.

(** The prompt ends in one of two ways: the process stops, or an accepted
    line is returned with no error.  Either way only operator input was
    consumed. *)
Lemma promptForSharedPassword_on_cases (input : list Key) (w : World) :
  operator w = input ->
  (∃ s typed rest, input = typed ++ rest
      ∧ promptForSharedPassword_on input w = Halt s (prompted typed rest w))
  ∨ (∃ line typed rest, input = typed ++ rest
      ∧ validateSharedPassword line = None
      ∧ promptForSharedPassword_on input w = Ret (line, None) (prompted typed rest w)).
Proof.
  revert w. induction input as [|key input IH]; intros w Hop.
  { left. exists Hung, [], []. split; [done|]. simpl.
    destruct w. unfold prompted. simpl in *. by rewrite app_nil_r, Hop. }
  simpl.
  assert (Hrec :
    (∃ s typed rest, key :: input = typed ++ rest
       ∧ promptForSharedPassword_on input (record (EvPrompt key) (with_operator input w))
         = Halt s (prompted typed rest w))
    ∨ (∃ line typed rest, key :: input = typed ++ rest
       ∧ validateSharedPassword line = None
       ∧ promptForSharedPassword_on input (record (EvPrompt key) (with_operator input w))
         = Ret (line, None) (prompted typed rest w))).
  { destruct (IH (record (EvPrompt key) (with_operator input w)) eq_refl)
      as [(s & typed & rest & -> & ->)|(line & typed & rest & -> & Hv & ->)];
      rewrite prompted_cons; [left|right].
    - by exists s, (key :: typed), rest.
    - by exists line, (key :: typed), rest. }
  destruct key as [line| |]; simpl.
  - destruct (validateSharedPassword line) eqn:Hv; [apply Hrec|].
    right. by exists line, [Enter line], input.
  - left. by exists (Exited (-1)), [CtrlC], input.
  - apply Hrec.
Qed.


(** ** Runs *)

(** A run that started after quiet events away from the cluster is a run
    of the world before them. *)
Lemma EnsureRun_prefix (k : ClusterResourceKey) (gm : string) (w w1 : World)
    (pre0 : list Event) (sh : Shape) (o : Outcome (option error)) :
  objects w1 = objects w ->
  getFault w1 = getFault w ->
  createFault w1 = createFault w ->
  trace w1 = trace w ++ pre0 ->
  Quiet pre0 ->
  EnsureRun k gm w1 sh o ->
  EnsureRun k gm w sh o.
Proof.
  intros Ho Hg Hc Ht Hq Hrun.
  assert (Hget : apiserver_get w1 k = apiserver_get w k) by by apply apiserver_get_same.
  assert (Href : ∀ ns obj, apiserver_refuses w1 k ns obj = apiserver_refuses w k ns obj)
    by (intros; by apply apiserver_refuses_same).
  destruct Hrun as [s w' evs H1 H2 H3 | w' pre pw e H1 H2 H3 | w' pre obj H0 H1 H2 H3
                   | w' pre e H0 Hnf H1 H2 H3
                   | w' pre mid e obj H0 Hnf Hk Hr H1 H2 H3 H4
                   | w' pre mid e obj e' msg H0 Hnf Hk Hr H1 H2 H3 H4];
    rewrite ?Hget, ?Href, ?Ho, Ht, <- ?app_assoc in *.
  - apply (run_halted _ _ _ _ _ (pre0 ++ evs)); auto using Quiet_app.
  - apply (run_refused _ _ _ _ (pre0 ++ pre) pw e); auto using Quiet_app.
    by rewrite <- app_assoc.
  - apply (run_present _ _ _ _ (pre0 ++ pre) obj); auto using Quiet_app.
    by rewrite <- app_assoc.
  - apply (run_fatal _ _ _ _ (pre0 ++ pre) e); auto using Quiet_app.
    by rewrite <- app_assoc.
  - apply (run_created _ _ _ _ (pre0 ++ pre) mid e obj); auto using Quiet_app.
    by rewrite <- app_assoc.
  - apply (run_create_failed _ _ _ _ (pre0 ++ pre) mid e obj e' msg); auto using Quiet_app.
    by rewrite <- app_assoc.
Qed.

(** After a run that reached its query, a second run against the cluster
    it left stores nothing. *)
Lemma EnsureRun_again (k : ClusterResourceKey) (gm gm' : string)
    (w w1 w1' : World) (sh sh2 : Shape) (r : option error)
    (o2 : Outcome (option error)) :
  EnsureRun k gm w sh (Ret r w1) ->
  queried sh = true ->
  getFault w1 = getFault w ->
  createFault w1 = createFault w ->
  objects w1' = objects w1 ->
  getFault w1' = getFault w1 ->
  createFault w1' = createFault w1 ->
  EnsureRun k gm' w1' sh2 o2 ->
  objects (final o2) = objects w1'.
Proof.
  intros Hrun1 Hq Hg Hc Ho' Hg' Hc' Hrun2.
  inversion Hrun2 as [| | | | w2 pre2 mid2 e2 obj2 Hget2 Hnf2 Hk2 Hr2 Hobj2 |]; subst; try done.
  exfalso.
  pose proof (apiserver_accepts _ _ _ _ Hr2) as [Hcf2 Habs2].
  rewrite Ho' in Habs2.
  assert (Hget : apiserver_get w1' (resourceKey obj2) = apiserver_get w1 (resourceKey obj2))
    by by apply apiserver_get_same.
  inversion Hrun1 as [| | ? ? obj Hget1 Hobj1 | ? ? e Hget1 Hnf1 Hobj1
                     | ? ? ? e obj Hget1 Hnf1 Hk1 Hr1 Hobj1
                     | ? ? ? e obj e' ? Hget1 Hnf1 Hk1 Hr1 Hobj1]; subst; try done.
  - rewrite Hobj1 in Habs2.
    destruct (apiserver_get_cases w (resourceKey obj2)) as [(o & E & _ & Hl)|(e & E & _)];
      congruence.
  - rewrite (apiserver_get_same w w1) in Hget by done. congruence.
  - rewrite Hobj1, <- Hk1, lookup_insert_eq in Habs2. done.
  - destruct (apiserver_refuses_again w _ _ obj obj2 e' Hk1 eq_refl Hr1) as [x Hx].
    rewrite (apiserver_refuses_same w w1') in Hr2 by congruence. congruence.
Qed.

Lemma EnsureRun_objects (k : ClusterResourceKey) (gm : string) (w : World)
    (sh : Shape) (o : Outcome (option error)) :
  EnsureRun k gm w sh o ->
  sh ≠ Created ->
  objects (final o) = objects w.
Proof. by destruct 1. Qed.

(** Calling an operation of the shared shape again stores nothing. *)
Lemma ensureWith_again (kind : Kind) (ns name gm cm : string) (build : M Resource)
    (w w1 : World) (r : option error) :
  Builds kind ns name build ->
  ensureWith kind ns name gm cm build w = Ret r w1 ->
  objects (final (ensureWith kind ns name gm cm build w1)) = objects w1.
Proof.
  intros Hb E.
  destruct (ensureWith_run kind ns name gm cm build w Hb) as (sh & Hq & Hrun).
  destruct (ensureWith_frame kind ns name gm cm build w Hb) as ((Hg & Hc & _) & _).
  rewrite E in *.
  destruct (ensureWith_run kind ns name gm cm build w1 Hb) as (sh2 & _ & Hrun2).
  simpl in *. eapply EnsureRun_again; eauto.
Qed.

Ltac solve_builds :=
  lazymatch goal with
  | |- Builds _ _ _ (mret ?obj) => apply (Builds_pure obj)
  | |- Builds _ _ _ (uuid_New ≫= _) => first [apply Builds_jwt | apply Builds_s3]
  end.

(** The run and the frame of the shared shape in the goal. *)
Ltac ensure_run sh Hq Hrun :=
  lazymatch goal with
  | |- context [ensureWith ?k ?ns ?n ?gm ?cm ?b ?w] =>
      destruct (ensureWith_run k ns n gm cm b w) as (sh & Hq & Hrun); [solve_builds|]
  end.

Ltac ensure_frame Hf Hd Hop :=
  lazymatch goal with
  | |- context [ensureWith ?k ?ns ?n ?gm ?cm ?b ?w] =>
      destruct (ensureWith_frame k ns n gm cm b w) as (Hf & Hd & Hop); [solve_builds|]
  end.

(** ** The shared-password operation *)

(** With a plaintext in the options nobody is prompted: the hash is
    computed, and the rest is the shared shape. *)
Lemma ensureSharedPasswordSecret_settled (w : World) :
  SharedPassword (deployOptions w) ≠ "" ->
  ensureSharedPasswordSecret w =
  match bcryptReject (SharedPassword (deployOptions w)) with
  | Some e =>
      Ret (Some (withMessage e "failed to bcrypt shared password"))
          (record (EvBcrypt (SharedPassword (deployOptions w)) (Some e)) w)
  | None =>
      ensureWith KSecret (Namespace (deployOptions w)) "kotsadm-password"
        "failed to get existing password secret" "failed to create password secret"
        (mret (sharedPasswordSecret (Namespace (deployOptions w))
                 ("$2a$" +:+ bcryptDigest 10 (entropy w (drawn w))
                                (SharedPassword (deployOptions w)))))
        (advance 1 [EvBcrypt (SharedPassword (deployOptions w)) None] w)
  end.
Proof.
  intros Hpw. unfold ensureSharedPasswordSecret. rewrite bind_eq. simpl.
  rewrite bool_decide_eq_false_2 by done.
  rewrite bind_eq. simpl. rewrite bind_eq. unfold bcrypt_GenerateFromPassword.
  by destruct (bcryptReject _).
Qed.

(** Without one the operator is asked first; unless the process stops at
    the prompt, the call goes on as a call with the accepted line in the
    options. *)
Lemma ensureSharedPasswordSecret_prompting (w : World) :
  SharedPassword (deployOptions w) = "" ->
  (∃ s typed rest, operator w = typed ++ rest
      ∧ ensureSharedPasswordSecret w = Halt s (prompted typed rest w))
  ∨ (∃ line typed rest, operator w = typed ++ rest
      ∧ validateSharedPassword line = None
      ∧ ensureSharedPasswordSecret w =
        ensureSharedPasswordSecret
          (with_deployOptions (set_SharedPassword line (deployOptions w))
                              (prompted typed rest w))).
Proof.
  intros Hpw.
  destruct (promptForSharedPassword_on_cases (operator w) w eq_refl)
    as [(s & typed & rest & Hop & Hp)|(line & typed & rest & Hop & Hv & Hp)].
  - left. exists s, typed, rest. split; [done|].
    unfold ensureSharedPasswordSecret. rewrite bind_eq. simpl.
    rewrite bool_decide_eq_true_2 by done.
    rewrite bind_eq. unfold promptForSharedPassword. by rewrite Hp.
  - right. exists line, typed, rest. split; [done|]. split; [done|].
    rewrite (ensureSharedPasswordSecret_settled (with_deployOptions _ _))
      by (simpl; by apply validateSharedPassword_nonempty).
    unfold ensureSharedPasswordSecret. rewrite bind_eq. simpl.
    rewrite bool_decide_eq_true_2 by done.
    rewrite bind_eq. unfold promptForSharedPassword. rewrite Hp. simpl.
    rewrite bind_eq. simpl. rewrite bind_eq. simpl. rewrite bind_eq.
    unfold bcrypt_GenerateFromPassword. simpl.
    by destruct (bcryptReject line).
Qed.

Lemma Quiet_bcrypt (pw : string) : Quiet [EvBcrypt pw None].
Proof. by repeat constructor. Qed.

Lemma ensureSharedPasswordSecret_settled_run (w : World) :
  SharedPassword (deployOptions w) ≠ "" ->
  ∃ sh, EnsureRun (KSecret, Namespace (deployOptions w), "kotsadm-password")
          "failed to get existing password secret" w sh
          (ensureSharedPasswordSecret w).
Proof.
  intros Hpw. rewrite ensureSharedPasswordSecret_settled by done.
  destruct (bcryptReject _) as [e|].
  - exists Refused. by eapply (run_refused _ _ _ _ [] _ e); auto using Quiet_nil.
  - ensure_run sh Hq Hrun.
    exists sh. eapply EnsureRun_prefix; [..|exact Hrun]; simpl; eauto using Quiet_bcrypt.
Qed.

Lemma ensureSharedPasswordSecret_run (w : World) :
  ∃ sh, EnsureRun (KSecret, Namespace (deployOptions w), "kotsadm-password")
          "failed to get existing password secret" w sh
          (ensureSharedPasswordSecret w).
Proof.
  destruct (decide (SharedPassword (deployOptions w) = "")) as [Hpw|Hpw];
    [|by apply ensureSharedPasswordSecret_settled_run].
  destruct (ensureSharedPasswordSecret_prompting w Hpw)
    as [(s & typed & rest & Hop & ->)|(line & typed & rest & Hop & Hv & ->)].
  - exists Halted. apply (run_halted _ _ _ _ _ (map EvPrompt typed)); auto using Quiet_prompt.
  - destruct (ensureSharedPasswordSecret_settled_run
                (with_deployOptions (set_SharedPassword line (deployOptions w))
                                    (prompted typed rest w))) as (sh & Hrun);
      [simpl; by apply validateSharedPassword_nonempty|].
    exists sh. eapply EnsureRun_prefix; [..|exact Hrun];
      simpl; eauto using Quiet_prompt.
Qed.

Lemma ensureSharedPasswordSecret_settled_frame (w : World) :
  SharedPassword (deployOptions w) ≠ "" ->
  ApplyFrame w (final (ensureSharedPasswordSecret w))
  ∧ deployOptions (final (ensureSharedPasswordSecret w)) = deployOptions w.
Proof.
  intros Hpw. rewrite ensureSharedPasswordSecret_settled by done.
  destruct (bcryptReject _) as [e|]; [split; [apply ApplyFrame_record|done]|].
  ensure_frame Hf Hd Hop.
  split; [|by rewrite Hd].
  eapply ApplyFrame_trans; [|exact Hf]. apply ApplyFrame_advance.
Qed.

Lemma ensureSharedPasswordSecret_frame (w : World) :
  ApplyFrame w (final (ensureSharedPasswordSecret w)).
Proof.
  destruct (decide (SharedPassword (deployOptions w) = "")) as [Hpw|Hpw];
    [|by apply ensureSharedPasswordSecret_settled_frame].
  destruct (ensureSharedPasswordSecret_prompting w Hpw)
    as [(s & typed & rest & Hop & ->)|(line & typed & rest & Hop & Hv & ->)].
  - repeat split; simpl; try done; eauto.
  - eapply ApplyFrame_trans;
      [|apply ensureSharedPasswordSecret_settled_frame; simpl;
        by apply validateSharedPassword_nonempty].
    repeat split; simpl; try done; eauto.
Qed.

Lemma ensureSharedPasswordSecret_settled_again (w : World) :
  SharedPassword (deployOptions w) ≠ "" ->
  objects (final ((_ ← ensureSharedPasswordSecret; ensureSharedPasswordSecret) w))
  = objects (final (ensureSharedPasswordSecret w)).
Proof.
  intros Hpw. rewrite bind_eq.
  destruct (ensureSharedPasswordSecret_settled_frame w Hpw) as [(Hg & Hc & _) Hd].
  rewrite (ensureSharedPasswordSecret_settled w) in * by done.
  destruct (bcryptReject (SharedPassword (deployOptions w))) as [e|] eqn:Hrej.
  - rewrite ensureSharedPasswordSecret_settled by done. simpl. by rewrite Hrej.
  - ensure_run sh Hq Hrun.
    destruct (ensureWith _ _ _ _ _ _ _) as [r w1|s w1] eqn:E; [|done].
    simpl in Hd, Hg, Hc.
    rewrite ensureSharedPasswordSecret_settled by congruence.
    rewrite Hd, Hrej.
    ensure_run sh2 Hq2 Hrun2.
    simpl. etrans; [eapply EnsureRun_again; [exact Hrun|..|exact Hrun2]|]; eauto.
Qed.

Lemma ensureSharedPasswordSecret_again (w : World) :
  objects (final ((_ ← ensureSharedPasswordSecret; ensureSharedPasswordSecret) w))
  = objects (final (ensureSharedPasswordSecret w)).
Proof.
  destruct (decide (SharedPassword (deployOptions w) = "")) as [Hpw|Hpw];
    [|by apply ensureSharedPasswordSecret_settled_again].
  destruct (ensureSharedPasswordSecret_prompting w Hpw)
    as [(s & typed & rest & Hop & E)|(line & typed & rest & Hop & Hv & E)].
  - by rewrite bind_eq, E.
  - rewrite bind_eq, E, <- bind_eq.
    apply ensureSharedPasswordSecret_settled_again. simpl.
    by apply validateSharedPassword_nonempty.
Qed.


(** ** Any call *)

Ltac to_shape :=
  rewrite ?ensureS3Secret_shape, ?ensureJWTSessionSecret_shape,
    ?ensurePostgresSecret_shape, ?ensureMinioConfigMap_shape,
    ?ensureMinioStatefulset_shape, ?ensureMinioService_shape,
    ?ensureMinioJob_shape in *.

Lemma invoke_run (c : EnsureCall) (w : World) :
  ∃ sh, EnsureRun (callKey c w) (getMessage c) w sh (invoke c w).
Proof.
  destruct c; simpl; try apply ensureSharedPasswordSecret_run;
    to_shape; ensure_run sh Hq Hrun; by exists sh.
Qed.

Lemma invoke_frame (c : EnsureCall) (w : World) :
  ApplyFrame w (final (invoke c w)).
Proof.
  destruct c; simpl; try apply ensureSharedPasswordSecret_frame;
    to_shape; by ensure_frame Hf Hd Hop.
Qed.

Lemma invoke_again (c : EnsureCall) (w w1 : World) (r : option error) :
  invoke c w = Ret r w1 ->
  objects (final (invoke c w1)) = objects w1.
Proof.
  destruct c; simpl; intros E;
    try (to_shape; eapply ensureWith_again; [solve_builds|exact E]).
  pose proof (ensureSharedPasswordSecret_again w) as H.
  by rewrite bind_eq, E in H.
Qed.


(** ** What a run emits *)

Lemma Quiet_elem (evs : list Event) (e : Event) :
  Quiet evs -> e ∈ evs -> isClusterEvent e = false ∧ failure e = None.
Proof. unfold Quiet. rewrite Forall_forall. auto. Qed.

Lemma EnsureRun_trace (k : ClusterResourceKey) (gm : string) (w : World)
    (sh : Shape) (o : Outcome (option error)) :
  EnsureRun k gm w sh o -> trace (final o) = trace w ++ emitted w o.
Proof.
  assert (H : ∀ evs, trace (final o) = trace w ++ evs ->
                     trace (final o) = trace w ++ emitted w o).
  { intros evs Ht. by rewrite (emitted_app _ _ _ Ht). }
  destruct 1; eapply H; simpl; eauto.
Qed.

Lemma Quiet_no_get (evs : list Event) (k : ClusterResourceKey) (r : option error) :
  Quiet evs -> EvGet k r ∉ evs.
Proof. intros Hq Hin. by destruct (Quiet_elem _ _ Hq Hin). Qed.

Lemma Quiet_no_create (evs : list Event) (e : Event) :
  Quiet evs -> e ∈ evs -> isCreate e = false.
Proof. intros Hq Hin. destruct (Quiet_elem _ _ Hq Hin). by destruct e. Qed.

(** A query that found its object is the only call of its run. *)
Lemma EnsureRun_found (k k' : ClusterResourceKey) (gm : string) (w : World)
    (sh : Shape) (o : Outcome (option error)) :
  EnsureRun k gm w sh o ->
  EvGet k' None ∈ emitted w o ->
  k' = k ∧ sh = Present
  ∧ ∀ e, e ∈ emitted w o -> isCreate e = false.
Proof.
  clear yamlEncode bcryptReject.
  intros Hrun.
  destruct Hrun as [s w' evs H1 H2 H3 | w' pre pw e H1 H2 H3 | w' pre obj H0 H1 H2 H3
                   | w' pre e H0 Hnf H1 H2 H3
                   | w' pre mid e obj H0 Hnf Hk Hr H1 H2 H3 H4
                   | w' pre mid e obj e' msg H0 Hnf Hk Hr H1 H2 H3 H4];
    (erewrite emitted_app; [|simpl; eassumption]);
    intros Hin;
    try pose proof (Quiet_no_get _ k' None H3);
    try pose proof (Quiet_no_get _ k' None H4);
    set_unfold in Hin; try (exfalso; intuition congruence).
  destruct Hin as [?|[Hin|[]]]; [done|]. injection Hin as ->.
  repeat split. intros e0 He0. set_unfold in He0.
  destruct He0 as [He0|[->|[]]]; [by eapply Quiet_no_create|done].
Qed.

(** One run creates its key at most once, never a key that is stored, and
    what it created is stored afterwards. *)
Lemma EnsureRun_creations (k k' : ClusterResourceKey) (gm : string) (w : World)
    (sh : Shape) (o : Outcome (option error)) :
  EnsureRun k gm w sh o ->
  (creations k' (emitted w o) ≤ 1)%nat
  ∧ (is_Some (objects w !! k') -> creations k' (emitted w o) = 0%nat)
  ∧ (creations k' (emitted w o) = 1%nat -> is_Some (objects (final o) !! k')).
Proof.
  intros Hrun.
  destruct Hrun as [s w' evs H1 H2 H3 | w' pre pw e H1 H2 H3 | w' pre obj H0 H1 H2 H3
                   | w' pre e H0 Hnf H1 H2 H3
                   | w' pre mid e obj H0 Hnf Hk Hr H1 H2 H3 H4
                   | w' pre mid e obj e' msg H0 Hnf Hk Hr H1 H2 H3 H4];
    (erewrite emitted_app; [|simpl; eassumption]);
    rewrite ?creations_app, ?(Quiet_creations _ pre), ?(Quiet_creations _ evs) by done;
    try (change (EvGet k (Some e) :: ?l) with ([EvGet k (Some e)] ++ l));
    rewrite ?creations_app, ?(Quiet_creations _ mid) by done;
    unfold creations; simpl; try (repeat split; (lia || done)).
  case_bool_decide as Hkk; simpl; [subst k'|repeat split; (lia || done)].
  apply apiserver_accepts in Hr as [_ Habs].
  repeat split; [lia| |].
  - rewrite Habs. by intros [? ?].
  - intros _. rewrite H1, lookup_insert_eq. eauto.
Qed.


(** ** Sequences of calls *)

Lemma emitted_bind {A B} (m : M A) (f : A -> M B) (w w1 : World) (a : A) :
  m w = Ret a w1 ->
  (∃ evs, trace w1 = trace w ++ evs) ->
  (∃ evs, trace (final (f a w1)) = trace w1 ++ evs) ->
  emitted w ((m ≫= f) w) = emitted w (m w) ++ emitted w1 (f a w1).
Proof.
  intros E [evs1 H1] [evs2 H2]. rewrite bind_eq, E.
  rewrite (emitted_app w1 _ evs2 H2), (emitted_app w (Ret a w1) evs1 H1).
  apply emitted_app. by rewrite H2, H1, app_assoc.
Qed.

Lemma emitted_halt {A B} (m : M A) (f : A -> M B) (w w1 : World) (s : Stop) :
  m w = Halt s w1 ->
  emitted w ((m ≫= f) w) = emitted w (m w).
Proof. intros E. by rewrite bind_eq, E. Qed.

Lemma emitted_map {A B} (m : M A) (g : A -> B) (w : World) :
  emitted w ((a ← m; mret (g a)) w) = emitted w (m w).
Proof. rewrite bind_eq. by destruct (m w). Qed.

Lemma invokeAll_frame (cs : list EnsureCall) (w : World) :
  ApplyFrame w (final (invokeAll cs w)).
Proof.
  revert w. induction cs as [|c cs IH]; intros w; [apply ApplyFrame_refl|].
  simpl. apply ApplyFrame_bind; [apply invoke_frame|].
  intros err w1 _. apply ApplyFrame_bind; [apply IH|].
  intros; apply ApplyFrame_refl.
Qed.

Lemma ApplyFrame_trace (w w' : World) :
  ApplyFrame w w' -> ∃ evs, trace w' = trace w ++ evs.
Proof. by intros (_ & _ & _ & _ & H & _). Qed.

Lemma ApplyFrame_stored (w w' : World) (k : ClusterResourceKey) :
  ApplyFrame w w' -> is_Some (objects w !! k) -> is_Some (objects w' !! k).
Proof.
  intros (_ & _ & _ & Hsub & _) [obj Hobj].
  exists obj. by eapply lookup_weaken.
Qed.

(** However many calls are made, in whatever order and with whatever
    results, no key is created twice, and a stored key is never created. *)
Lemma invokeAll_creations (cs : list EnsureCall) (w : World) (k : ClusterResourceKey) :
  (creations k (emitted w (invokeAll cs w)) ≤ 1)%nat
  ∧ (is_Some (objects w !! k) -> creations k (emitted w (invokeAll cs w)) = 0%nat).
Proof.
  revert w. induction cs as [|c cs IH]; intros w.
  { simpl. unfold emitted. simpl. rewrite drop_all. split; [cbn; lia|done]. }
  simpl.
  destruct (invoke_run c w) as (sh & Hrun).
  destruct (EnsureRun_creations _ k _ _ _ _ Hrun) as (Hle & Hstored & Hnew).
  pose proof (invoke_frame c w) as Hf.
  destruct (invoke c w) as [err w1|s w1] eqn:E.
  2:{ erewrite emitted_halt by exact E. rewrite E. by split. }
  erewrite emitted_bind;
    [|exact E|by apply ApplyFrame_trace
     |eapply ApplyFrame_trace, ApplyFrame_bind;
      [apply invokeAll_frame|intros; apply ApplyFrame_refl]].
  rewrite E, emitted_map, creations_app.
  destruct (IH w1) as [IHle IHstored]. simpl in *.
  split.
  - destruct (decide (creations k (emitted w (Ret err w1)) = 1%nat)) as [H1|H1].
    + rewrite IHstored by auto. lia.
    + lia.
  - intros Hs. rewrite Hstored by done.
    rewrite IHstored; [done|]. by eapply ApplyFrame_stored.
Qed.


Ltac destruct_run Hrun :=
  destruct Hrun as [s w' evs H1 H2 H3 | w' pre pw e H1 H2 H3 | w' pre obj H0 H1 H2 H3
                   | w' pre e H0 Hnf H1 H2 H3
                   | w' pre mid e obj H0 Hnf Hk Hr H1 H2 H3 H4
                   | w' pre mid e obj e' msg H0 Hnf Hk Hr H1 H2 H3 H4];
  (erewrite emitted_app; [|simpl; eassumption]).

(** A query that failed with anything but not-found is the only call of
    its run, and its error comes back wrapped. *)
Lemma EnsureRun_fatal (k k' : ClusterResourceKey) (gm : string) (w : World)
    (sh : Shape) (o : Outcome (option error)) (err : error) :
  EnsureRun k gm w sh o ->
  EvGet k' (Some err) ∈ emitted w o ->
  IsNotFound err = false ->
  sh = Fatal
  ∧ returned o = Some (Some (withMessage err gm))
  ∧ ∀ e, e ∈ emitted w o -> isCreate e = false.
Proof.
  clear yamlEncode bcryptReject.
  intros Hrun. destruct_run Hrun; intros Hin Herr;
    try pose proof (Quiet_no_get _ k' (Some err) H3);
    try pose proof (Quiet_no_get _ k' (Some err) H4);
    set_unfold in Hin; try (exfalso; intuition congruence).
  destruct Hin as [?|[Hin|[]]]; [done|]. injection Hin as -> ->.
  repeat split. intros e0 He0. set_unfold in He0.
  destruct He0 as [He0|[->|[]]]; [by eapply Quiet_no_create|done].
Qed.

(** A create is the last call of its run, after the query of the same key
    that returned not-found. *)
Lemma EnsureRun_create (k : ClusterResourceKey) (gm : string) (w : World)
    (sh : Shape) (o : Outcome (option error)) (ev : Event) :
  EnsureRun k gm w sh o ->
  ev ∈ emitted w o ->
  isCreate ev = true ->
  ∃ e pre mid obj r,
    IsNotFound e = true
    ∧ apiserver_get w k = (None, Some e)
    ∧ ev = EvCreate k obj r
    ∧ emitted w o = pre ++ EvGet k (Some e) :: mid ++ [ev]
    ∧ Quiet pre ∧ Quiet mid.
Proof.
  clear yamlEncode bcryptReject.
  intros Hrun. destruct_run Hrun; intros Hin Hev;
    try pose proof (Quiet_no_create _ ev H3);
    try pose proof (Quiet_no_create _ ev H4);
    set_unfold in Hin;
    try (exfalso; destruct ev; simpl in *; intuition congruence).
  - exists e, pre, mid, obj, None.
    assert (ev = EvCreate k obj None) as ->
      by (destruct ev; simpl in *; intuition congruence).
    done.
  - exists e, pre, mid, obj, (Some e').
    assert (ev = EvCreate k obj (Some e')) as ->
      by (destruct ev; simpl in *; intuition congruence).
    done.
Qed.

Lemma invoke_cluster_faults (c : EnsureCall) (w : World) :
  getFault (final (invoke c w)) = getFault w
  ∧ createFault (final (invoke c w)) = createFault w.
Proof. by destruct (invoke_frame c w) as (-> & -> & _). Qed.

(** ** The apply path: one resource *)

(** C1.  Calling any ensure-operation twice in a row leaves the cluster as
    calling it once does; an operation whose query finds the resource makes
    no create and changes nothing; and over any sequence of ensure-operations
    no key is created twice. *)
Theorem ensure_idempotent (c : EnsureCall) (w : World) :
  cluster (final ((_ ← invoke c; invoke c) w)) = cluster (final (invoke c w))
  ∧ (∀ k, EvGet k None ∈ emitted w (invoke c w) ->
       k = callKey c w
       ∧ cluster (final (invoke c w)) = cluster w
       ∧ ∀ e, e ∈ emitted w (invoke c w) -> isCreate e = false)
  ∧ (∀ (cs : list EnsureCall) (k : ClusterResourceKey),
       (creations k (emitted w (invokeAll cs w)) ≤ 1)%nat).
Proof.
  split; [|split].
  - rewrite bind_eq. destruct (invoke c w) as [r w1|s w1] eqn:E; [|done].
    destruct (invoke_cluster_faults c w1) as [Hg Hc].
    unfold cluster. simpl. by rewrite (invoke_again c w w1 r E), Hg, Hc.
  - intros k Hin.
    destruct (invoke_run c w) as (sh & Hrun).
    destruct (EnsureRun_found _ _ _ _ _ _ Hrun Hin) as (-> & -> & Hno).
    destruct (invoke_cluster_faults c w) as [Hg Hc].
    split; [done|]. split; [|done].
    unfold cluster. by rewrite (EnsureRun_objects _ _ _ _ _ Hrun), Hg, Hc.
  - intros cs k. apply invokeAll_creations.
Qed.

(** C2.  When the query of an ensure-operation fails with an error that
    is not a not-found status error, the operation returns that error
    wrapped in its own message, makes no create and leaves the cluster as
    it was; and whenever an operation makes a create, its query of the same
    key came back not-found before. *)
Theorem ensure_not_found_only (c : EnsureCall) (w : World) :
  (∀ k err, EvGet k (Some err) ∈ emitted w (invoke c w) ->
     IsNotFound err = false ->
     returned (invoke c w) = Some (Some (withMessage err (getMessage c)))
     ∧ cluster (final (invoke c w)) = cluster w
     ∧ ∀ e, e ∈ emitted w (invoke c w) -> isCreate e = false)
  ∧ (∀ ev, ev ∈ emitted w (invoke c w) -> isCreate ev = true ->
     ∃ e pre mid,
       IsNotFound e = true
       ∧ apiserver_get w (callKey c w) = (None, Some e)
       ∧ emitted w (invoke c w) = pre ++ EvGet (callKey c w) (Some e) :: mid ++ [ev]
       ∧ clusterEvents pre = [] ∧ clusterEvents mid = []).
Proof.
  destruct (invoke_run c w) as (sh & Hrun). split.
  - intros k err Hin Herr.
    destruct (EnsureRun_fatal _ _ _ _ _ _ _ Hrun Hin Herr) as (-> & Hret & Hno).
    destruct (invoke_cluster_faults c w) as [Hg Hc].
    split; [done|]. split; [|done].
    unfold cluster. by rewrite (EnsureRun_objects _ _ _ _ _ Hrun), Hg, Hc.
  - intros ev Hin Hev.
    destruct (EnsureRun_create _ _ _ _ _ _ Hrun Hin Hev)
      as (e & pre & mid & obj & r & Hnf & Hget & -> & Hem & Hq1 & Hq2).
    exists e, pre, mid. repeat split; auto using Quiet_clusterEvents.
Qed.


(** ** Passes *)

Lemma orWrap_cases (step : M (option error)) (msg : string)
    (rest : M (option error)) (w : World) :
  (∃ s w1, step w = Halt s w1 ∧ orWrap step msg rest w = Halt s w1)
  ∨ (∃ e w1, step w = Ret (Some e) w1
             ∧ orWrap step msg rest w = Ret (Some (withMessage e msg)) w1)
  ∨ (∃ w1, step w = Ret None w1 ∧ orWrap step msg rest w = rest w1).
Proof.
  unfold orWrap. rewrite bind_eq.
  destruct (step w) as [[e|] w1|s w1]; eauto 10.
Qed.

Lemma ApplyFrame_orWrap (step : M (option error)) (msg : string)
    (rest : M (option error)) (w : World) :
  ApplyFrame w (final (step w)) ->
  (∀ w1, step w = Ret None w1 -> ApplyFrame w1 (final (rest w1))) ->
  ApplyFrame w (final (orWrap step msg rest w)).
Proof.
  intros Hs Hr.
  destruct (orWrap_cases step msg rest w)
    as [(s & w1 & E & ->)|[(e & w1 & E & ->)|(w1 & E & ->)]]; rewrite E in Hs; try done.
  eapply ApplyFrame_trans; [exact Hs|]. by apply Hr.
Qed.

Lemma ensureMinio_frame (o : DeployOptions) (w : World) :
  ApplyFrame w (final (ensureMinio o w)).
Proof using bcryptReject bcryptDigest.
  unfold ensureMinio.
  repeat (apply ApplyFrame_orWrap;
          [first [apply (invoke_frame (CallMinioConfigMap _))
                 |apply (invoke_frame (CallMinioStatefulset _))
                 |apply (invoke_frame (CallMinioService _))
                 |apply (invoke_frame (CallMinioJob _))]|intros ? _]).
  apply ApplyFrame_refl.
Qed.

Lemma ensureSecrets_frame (w : World) :
  ApplyFrame w (final (ensureSecrets w)).
Proof.
  unfold ensureSecrets. rewrite bind_eq. simpl.
  apply ApplyFrame_orWrap; [apply (invoke_frame (CallJWTSessionSecret _))|intros w1 _].
  rewrite bind_eq. simpl.
  apply ApplyFrame_orWrap; [apply (invoke_frame (CallPostgresSecret _))|intros w2 _].
  apply ApplyFrame_orWrap; [apply (invoke_frame CallSharedPasswordSecret)|intros w3 _].
  rewrite bind_eq. simpl.
  apply ApplyFrame_orWrap; [apply (invoke_frame (CallS3Secret _))|intros w4 _].
  apply ApplyFrame_refl.
Qed.

Lemma provision_frame (w : World) :
  ApplyFrame w (final (provision w)).
Proof.
  unfold provision.
  apply ApplyFrame_orWrap; [apply ensureSecrets_frame|intros w1 _].
  rewrite bind_eq. simpl.
  apply ApplyFrame_orWrap; [apply ensureMinio_frame|intros w2 _].
  apply ApplyFrame_refl.
Qed.


Lemma Quiet_NoFailure (evs : list Event) : Quiet evs -> NoFailure evs.
Proof. unfold Quiet, NoFailure. intros H. eapply Forall_impl; [exact H|]. by intros e [_ ?]. Qed.

Lemma NoFailure_app (l1 l2 : list Event) :
  NoFailure l1 -> NoFailure l2 -> NoFailure (l1 ++ l2).
Proof. unfold NoFailure. intros. by apply Forall_app. Qed.

Lemma NoFailure_cons (e : Event) (l : list Event) :
  failure e = None -> NoFailure l -> NoFailure (e :: l).
Proof. by constructor. Qed.

Lemma EnsureRun_pass (k : ClusterResourceKey) (gm : string) (w : World)
    (sh : Shape) (o : Outcome (option error)) :
  EnsureRun k gm w sh o -> PassRun w o.
Proof.
  destruct 1 as [s w' evs H1 H2 H3 | w' pre pw e H1 H2 H3 | w' pre obj H0 H1 H2 H3
                | w' pre e H0 Hnf H1 H2 H3
                | w' pre mid e obj H0 Hnf Hk Hr H1 H2 H3 H4
                | w' pre mid e obj e' msg H0 Hnf Hk Hr H1 H2 H3 H4].
  - eapply pass_halted; eauto using Quiet_NoFailure.
  - apply (pass_failed _ _ pre (EvBcrypt pw (Some e)) e);
      [done|by apply Quiet_NoFailure|done|apply Wraps_more, Wraps_here].
  - eapply pass_done; eauto.
    apply NoFailure_app; [by apply Quiet_NoFailure|by repeat constructor].
  - apply (pass_failed _ _ pre (EvGet k (Some e)) e);
      [done|by apply Quiet_NoFailure|simpl; by rewrite Hnf|apply Wraps_more, Wraps_here].
  - eapply pass_done; eauto.
    apply NoFailure_app; [by apply Quiet_NoFailure|].
    apply NoFailure_cons; [simpl; by rewrite Hnf|].
    apply NoFailure_app; [by apply Quiet_NoFailure|by repeat constructor].
  - apply (pass_failed _ _ (pre ++ EvGet k (Some e) :: mid) (EvCreate k obj (Some e')) e').
    + by rewrite H2, <- !app_assoc.
    + apply NoFailure_app; [by apply Quiet_NoFailure|].
      apply NoFailure_cons; [simpl; by rewrite Hnf|by apply Quiet_NoFailure].
    + done.
    + apply Wraps_more, Wraps_here.
Qed.

Lemma PassRun_prefix (w w1 : World) (evs1 : list Event) (o : Outcome (option error)) :
  trace w1 = trace w ++ evs1 ->
  NoFailure evs1 ->
  PassRun w1 o ->
  PassRun w o.
Proof.
  intros Ht Hn [w' evs H1 H2|s w' evs H1 H2|w' pre ev e err H1 H2 H3 H4].
  - apply (pass_done _ _ (evs1 ++ evs)); [by rewrite H1, Ht, app_assoc|by apply NoFailure_app].
  - apply (pass_halted _ _ _ (evs1 ++ evs)); [by rewrite H1, Ht, app_assoc|by apply NoFailure_app].
  - apply (pass_failed _ _ (evs1 ++ pre) ev e err); try done.
    + by rewrite H1, Ht, <- !app_assoc.
    + by apply NoFailure_app.
Qed.

Lemma PassRun_orWrap (step : M (option error)) (msg : string)
    (rest : M (option error)) (w : World) :
  PassRun w (step w) ->
  (∀ w1, step w = Ret None w1 -> PassRun w1 (rest w1)) ->
  PassRun w (orWrap step msg rest w).
Proof.
  intros Hs Hr.
  destruct (orWrap_cases step msg rest w)
    as [(s & w1 & E & ->)|[(e & w1 & E & ->)|(w1 & E & ->)]]; rewrite E in Hs.
  - done.
  - inversion Hs; subst. eapply pass_failed; eauto. by apply Wraps_more.
  - inversion Hs; subst. eapply PassRun_prefix; eauto.
Qed.

Lemma PassRun_done (w : World) : PassRun w (Ret None w).
Proof. apply (pass_done _ _ []); [by rewrite app_nil_r|constructor]. Qed.

Lemma invoke_pass (c : EnsureCall) (w : World) : PassRun w (invoke c w).
Proof. destruct (invoke_run c w) as (sh & Hrun). by eapply EnsureRun_pass. Qed.

Lemma ensureMinio_pass (o : DeployOptions) (w : World) : PassRun w (ensureMinio o w).
Proof using bcryptReject bcryptDigest.
  unfold ensureMinio.
  repeat (apply PassRun_orWrap;
          [first [apply (invoke_pass (CallMinioConfigMap _))
                 |apply (invoke_pass (CallMinioStatefulset _))
                 |apply (invoke_pass (CallMinioService _))
                 |apply (invoke_pass (CallMinioJob _))]|intros ? _]).
  apply PassRun_done.
Qed.

Lemma ensureSecrets_pass (w : World) : PassRun w (ensureSecrets w).
Proof.
  unfold ensureSecrets. rewrite bind_eq. simpl.
  apply PassRun_orWrap; [apply (invoke_pass (CallJWTSessionSecret _))|intros w1 _].
  rewrite bind_eq. simpl.
  apply PassRun_orWrap; [apply (invoke_pass (CallPostgresSecret _))|intros w2 _].
  apply PassRun_orWrap; [apply (invoke_pass CallSharedPasswordSecret)|intros w3 _].
  rewrite bind_eq. simpl.
  apply PassRun_orWrap; [apply (invoke_pass (CallS3Secret _))|intros w4 _].
  apply PassRun_done.
Qed.

Lemma provision_pass (w : World) : PassRun w (provision w).
Proof.
  unfold provision.
  apply PassRun_orWrap; [apply ensureSecrets_pass|intros w1 _].
  rewrite bind_eq. simpl.
  apply PassRun_orWrap; [apply ensureMinio_pass|intros w2 _].
  apply PassRun_done.
Qed.

Lemma NoFailure_elem (evs : list Event) (ev : Event) (e : error) :
  NoFailure evs -> ev ∈ evs -> failure ev = Some e -> False.
Proof.
  unfold NoFailure. rewrite Forall_forall. intros H Hin He.
  specialize (H _ Hin). congruence.
Qed.

(** In a list whose only failed call is the last one, a failed call has
    nothing after it. *)
Lemma failure_last (pre pre0 post : list Event) (ev ev0 : Event) (e : error) :
  pre ++ ev :: post = pre0 ++ [ev0] ->
  NoFailure pre0 ->
  failure ev = Some e ->
  post = [] ∧ ev = ev0 ∧ pre = pre0.
Proof.
  intros Heq Hn He.
  destruct post as [|p post _] using rev_ind.
  - apply app_inj_tail in Heq as [-> ->]. done.
  - exfalso. change (ev :: post ++ [p]) with ((ev :: post) ++ [p]) in Heq.
    rewrite app_assoc in Heq. apply app_inj_tail in Heq as [<- _].
    eapply NoFailure_elem; [exact Hn| |exact He]. set_solver.
Qed.

Lemma PassRun_FailsFast (m : M (option error)) :
  (∀ w, PassRun w (m w)) ->
  (∀ w, ApplyFrame w (final (m w))) ->
  FailsFast m.
Proof.
  intros Hp Hf w. split; [|split].
  - intros pre ev post e Hem He.
    destruct (Hp w) as [w' evs H1 H2|s w' evs H1 H2|w' pre0 ev0 e0 err H1 H2 H3 H4];
      (erewrite emitted_app in Hem; [|simpl; eassumption]).
    + exfalso. eapply NoFailure_elem; [exact H2| |exact He]. rewrite Hem. set_solver.
    + exfalso. eapply NoFailure_elem; [exact H2| |exact He]. rewrite Hem. set_solver.
    + symmetry in Hem. destruct (failure_last _ _ _ _ _ _ Hem H2 He) as (-> & -> & ->).
      split; [done|]. exists err. split; [done|]. congruence.
  - intros err Hret.
    destruct (Hp w) as [w' evs H1 H2|s w' evs H1 H2|w' pre0 ev0 e0 err0 H1 H2 H3 H4];
      simpl in Hret; try done.
    injection Hret as <-. exists pre0, ev0, e0.
    split; [|done]. by apply emitted_app.
  - by destruct (Hf w) as (_ & _ & _ & Hsub & _).
Qed.


(** ** Order within a pass *)

Lemma emitted_final {A B} (w : World) (o1 : Outcome A) (o2 : Outcome B) :
  final o1 = final o2 -> emitted w o1 = emitted w o2.
Proof. unfold emitted. by intros ->. Qed.

Lemma orWrap_elem (step : M (option error)) (msg : string)
    (rest : M (option error)) (w : World) (ev : Event) :
  ApplyFrame w (final (step w)) ->
  (∀ w1, ApplyFrame w1 (final (rest w1))) ->
  ev ∈ emitted w (orWrap step msg rest w) ->
  ev ∈ emitted w (step w)
  ∨ ∃ w1, step w = Ret None w1
          ∧ orWrap step msg rest w = rest w1
          ∧ ev ∈ emitted w1 (rest w1).
Proof.
  intros Hs Hr.
  destruct (orWrap_cases step msg rest w)
    as [(s & w1 & E & ->)|[(e & w1 & E & ->)|(w1 & E & Ho)]]; rewrite E in *.
  - intros Hin. left. by erewrite emitted_final.
  - intros Hin. left. by erewrite emitted_final.
  - rewrite Ho.
    destruct (ApplyFrame_trace _ _ Hs) as [evs1 H1].
    destruct (ApplyFrame_trace _ _ (Hr w1)) as [evs2 H2]. simpl in H1.
    rewrite (emitted_app w (rest w1) (evs1 ++ evs2)) by by rewrite H2, H1, app_assoc.
    rewrite (emitted_app w (Ret None w1) evs1) by done.
    rewrite elem_of_app. intros [Hin|Hin]; [by left|right].
    exists w1. by rewrite (emitted_app w1 (rest w1) evs2).
Qed.

Lemma invoke_get_key (c : EnsureCall) (w : World) (k : ClusterResourceKey)
    (r : option error) :
  EvGet k r ∈ emitted w (invoke c w) -> k = callKey c w.
Proof.
  clear yamlEncode.
  destruct (invoke_run c w) as (sh & Hrun). revert Hrun.
  generalize (callKey c w) (getMessage c) (invoke c w). intros k0 gm o Hrun.
  destruct_run Hrun; intros Hin;
    try pose proof (Quiet_no_get _ k r H3);
    try pose proof (Quiet_no_get _ k r H4);
    set_unfold in Hin; intuition congruence.
Qed.

(** An operation that returned nil leaves its resource stored. *)
Lemma invoke_done_stored (c : EnsureCall) (w w1 : World) :
  invoke c w = Ret None w1 -> is_Some (objects w1 !! callKey c w).
Proof.
  intros E. destruct (invoke_run c w) as (sh & Hrun). rewrite E in Hrun.
  inversion Hrun as [| |? ? obj Hget Hobj| |? ? ? e obj Hget Hnf Hk Hr Hobj|]; subst.
  - rewrite Hobj.
    destruct (apiserver_get_cases w (callKey c w)) as [(o & E' & _ & Hl)|(e & E' & _)];
      [exists o|]; congruence.
  - rewrite Hobj, lookup_insert_eq. eauto.
Qed.

Lemma orWrap_last (step : M (option error)) (msg : string) (w : World) :
  final (orWrap step msg (mret None) w) = final (step w).
Proof.
  by destruct (orWrap_cases step msg (mret None) w)
    as [(s & w1 & -> & ->)|[(e & w1 & -> & ->)|(w1 & -> & ->)]].
Qed.

Lemma getDeployOptions_bind {A} (f : DeployOptions -> M A) (w : World) :
  (getDeployOptions ≫= f) w = f (deployOptions w) w.
Proof. reflexivity. Qed.

Lemma ApplyFrame_ret {A} (m : M A) (w w1 : World) (a : A) :
  m w = Ret a w1 -> ApplyFrame w (final (m w)) -> ApplyFrame w w1.
Proof. by intros ->. Qed.

Ltac solve_frame :=
  repeat lazymatch goal with
    | |- ApplyFrame _ (final (orWrap _ _ _ _)) =>
        apply ApplyFrame_orWrap; [|intros ? _]
    | |- ApplyFrame _ (final ((getDeployOptions ≫= _) _)) =>
        rewrite getDeployOptions_bind
    | |- ApplyFrame _ (final (mret _ _)) => apply ApplyFrame_refl
    | |- ApplyFrame _ (final (ensureSharedPasswordSecret _)) =>
        apply ensureSharedPasswordSecret_frame
    | |- ApplyFrame _ (final (ensureJWTSessionSecret _ _)) =>
        apply (invoke_frame (CallJWTSessionSecret _))
    | |- ApplyFrame _ (final (ensurePostgresSecret _ _)) =>
        apply (invoke_frame (CallPostgresSecret _))
    | |- ApplyFrame _ (final (ensureS3Secret _ _)) =>
        apply (invoke_frame (CallS3Secret _))
    | |- ApplyFrame _ (final (ensureMinioConfigMap _ _)) =>
        apply (invoke_frame (CallMinioConfigMap _))
    | |- ApplyFrame _ (final (ensureMinioStatefulset _ _)) =>
        apply (invoke_frame (CallMinioStatefulset _))
    | |- ApplyFrame _ (final (ensureMinioService _ _)) =>
        apply (invoke_frame (CallMinioService _))
    | |- ApplyFrame _ (final (ensureMinioJob _ _)) =>
        apply (invoke_frame (CallMinioJob _))
    | |- ApplyFrame _ (final (ensureMinio _ _)) => apply ensureMinio_frame
    | |- ApplyFrame _ (final (ensureSecrets _)) => apply ensureSecrets_frame
    end.

(** Within the storage group the job is queried only after the three
    operations before it returned nil, and their resources are stored. *)
Lemma ensureMinio_job_last (o : DeployOptions) (w : World) (r : option error) :
  EvGet (KJob, Namespace o, "kotsadm-minio") r ∈ emitted w (ensureMinio o w) ->
  ∃ w1 w2 w3,
    ensureMinioConfigMap (Namespace o) w = Ret None w1
    ∧ ensureMinioStatefulset (Namespace o) w1 = Ret None w2
    ∧ ensureMinioService (Namespace o) w2 = Ret None w3
    ∧ final (ensureMinio o w) = final (ensureMinioJob (Namespace o) w3)
    ∧ is_Some (objects w3 !! (KConfigMap, Namespace o, "kotsadm-minio"))
    ∧ is_Some (objects w3 !! (KStatefulSet, Namespace o, "kotsadm-minio"))
    ∧ is_Some (objects w3 !! (KService, Namespace o, "kotsadm-minio")).
Proof using bcryptReject bcryptDigest.
  unfold ensureMinio. intros Hin.
  apply orWrap_elem in Hin; [|solve_frame|intros; solve_frame].
  destruct Hin as [Hin|(w1 & E1 & -> & Hin)];
    [by apply (invoke_get_key (CallMinioConfigMap _)) in Hin|].
  apply orWrap_elem in Hin; [|solve_frame|intros; solve_frame].
  destruct Hin as [Hin|(w2 & E2 & -> & Hin)];
    [by apply (invoke_get_key (CallMinioStatefulset _)) in Hin|].
  apply orWrap_elem in Hin; [|solve_frame|intros; solve_frame].
  destruct Hin as [Hin|(w3 & E3 & -> & Hin)];
    [by apply (invoke_get_key (CallMinioService _)) in Hin|].
  exists w1, w2, w3. repeat split; try done.
  - apply orWrap_last.
  - pose proof (invoke_done_stored (CallMinioConfigMap _) _ _ E1) as H1.
    eapply ApplyFrame_stored; [|eapply ApplyFrame_stored; [|exact H1]].
    + eapply ApplyFrame_ret; [exact E3|solve_frame].
    + eapply ApplyFrame_ret; [exact E2|solve_frame].
  - pose proof (invoke_done_stored (CallMinioStatefulset _) _ _ E2) as H2.
    eapply ApplyFrame_stored; [|exact H2].
    eapply ApplyFrame_ret; [exact E3|solve_frame].
  - apply (invoke_done_stored (CallMinioService _) _ _ E3).
Qed.

Lemma emitted_ret_nil {A} (w : World) (a : A) : emitted w (Ret a w) = [].
Proof. unfold emitted. simpl. apply drop_all. Qed.

Lemma ApplyFrame_Namespace (w w' : World) :
  ApplyFrame w w' -> Namespace (deployOptions w') = Namespace (deployOptions w).
Proof. intros (_ & _ & _ & _ & _ & Hd & _). exact (f_equal Namespace Hd). Qed.

(** The credential group queries secrets only. *)
Lemma ensureSecrets_gets_secrets (w : World) (k : ClusterResourceKey)
    (r : option error) :
  EvGet k r ∈ emitted w (ensureSecrets w) -> k.1.1 = KSecret.
Proof.
  unfold ensureSecrets. rewrite bind_eq. simpl. intros Hin.
  apply orWrap_elem in Hin; [|solve_frame|intros; solve_frame].
  destruct Hin as [Hin|(w1 & E1 & _ & Hin)];
    [by apply (invoke_get_key (CallJWTSessionSecret _)) in Hin as ->|].
  rewrite bind_eq in Hin. simpl in Hin.
  apply orWrap_elem in Hin; [|solve_frame|intros; solve_frame].
  destruct Hin as [Hin|(w2 & E2 & _ & Hin)];
    [by apply (invoke_get_key (CallPostgresSecret _)) in Hin as ->|].
  apply orWrap_elem in Hin; [|solve_frame|intros; solve_frame].
  destruct Hin as [Hin|(w3 & E3 & _ & Hin)];
    [by apply (invoke_get_key CallSharedPasswordSecret) in Hin as ->|].
  rewrite bind_eq in Hin. simpl in Hin.
  apply orWrap_elem in Hin; [|solve_frame|intros; solve_frame].
  destruct Hin as [Hin|(w4 & E4 & _ & Hin)];
    [by apply (invoke_get_key (CallS3Secret _)) in Hin as ->|].
  simpl in Hin. rewrite emitted_ret_nil in Hin. by apply elem_of_nil in Hin.
Qed.

(** The credential group returns nil only when each of its four
    operations did, in order; the four secrets are stored then. *)
Lemma ensureSecrets_done (w w4 : World) :
  ensureSecrets w = Ret None w4 ->
  let ns := Namespace (deployOptions w) in
  ∃ w1 w2 w3,
    ensureJWTSessionSecret ns w = Ret None w1
    ∧ ensurePostgresSecret (deployOptions w1) w1 = Ret None w2
    ∧ ensureSharedPasswordSecret w2 = Ret None w3
    ∧ ensureS3Secret ns w3 = Ret None w4
    ∧ Namespace (deployOptions w4) = ns
    ∧ is_Some (objects w4 !! (KSecret, ns, "kotsadm-session"))
    ∧ is_Some (objects w4 !! (KSecret, ns, "kotsadm-postgres"))
    ∧ is_Some (objects w4 !! (KSecret, ns, "kotsadm-password"))
    ∧ is_Some (objects w4 !! (KSecret, ns, "kotsadm-minio")).
Proof.
  unfold ensureSecrets. rewrite bind_eq. simpl. intros E.
  destruct (orWrap_cases (ensureJWTSessionSecret (Namespace (deployOptions w)))
              "failed to ensure jwt session secret"
              (deployOptions ← getDeployOptions;
               orWrap (ensurePostgresSecret deployOptions)
                 "failed to ensure postgres secret"
                 (orWrap ensureSharedPasswordSecret
                    "failed to ensure shared password secret"
                    (deployOptions0 ← getDeployOptions;
                     orWrap (ensureS3Secret (Namespace deployOptions0))
                       "failed to ensure s3 secret" (mret None)))) w)
    as [(s & w1 & E1 & Ho)|[(e & w1 & E1 & Ho)|(w1 & E1 & Ho)]];
    rewrite Ho in E; try done. clear Ho.
  rewrite bind_eq in E. simpl in E.
  destruct (orWrap_cases (ensurePostgresSecret (deployOptions w1))
              "failed to ensure postgres secret"
              (orWrap ensureSharedPasswordSecret
                 "failed to ensure shared password secret"
                 (deployOptions0 ← getDeployOptions;
                  orWrap (ensureS3Secret (Namespace deployOptions0))
                    "failed to ensure s3 secret" (mret None))) w1)
    as [(s & w2 & E2 & Ho)|[(e & w2 & E2 & Ho)|(w2 & E2 & Ho)]];
    rewrite Ho in E; try done. clear Ho.
  destruct (orWrap_cases ensureSharedPasswordSecret
              "failed to ensure shared password secret"
              (deployOptions0 ← getDeployOptions;
               orWrap (ensureS3Secret (Namespace deployOptions0))
                 "failed to ensure s3 secret" (mret None)) w2)
    as [(s & w3 & E3 & Ho)|[(e & w3 & E3 & Ho)|(w3 & E3 & Ho)]];
    rewrite Ho in E; try done. clear Ho.
  rewrite bind_eq in E. simpl in E.
  destruct (orWrap_cases (ensureS3Secret (Namespace (deployOptions w3)))
              "failed to ensure s3 secret" (mret None) w3)
    as [(s & w4' & E4 & Ho)|[(e & w4' & E4 & Ho)|(w4' & E4 & Ho)]];
    rewrite Ho in E; try done. clear Ho.
  injection E as <-.
  assert (F1 : ApplyFrame w w1) by (eapply ApplyFrame_ret; [exact E1|solve_frame]).
  assert (F2 : ApplyFrame w1 w2) by (eapply ApplyFrame_ret; [exact E2|solve_frame]).
  assert (F3 : ApplyFrame w2 w3) by (eapply ApplyFrame_ret; [exact E3|solve_frame]).
  assert (F4 : ApplyFrame w3 w4') by (eapply ApplyFrame_ret; [exact E4|solve_frame]).
  pose proof (ApplyFrame_Namespace _ _ F1) as N1.
  pose proof (ApplyFrame_Namespace _ _ F2) as N2.
  pose proof (ApplyFrame_Namespace _ _ F3) as N3.
  pose proof (ApplyFrame_Namespace _ _ F4) as N4.
  pose proof (invoke_done_stored (CallJWTSessionSecret _) _ _ E1) as S1.
  pose proof (invoke_done_stored (CallPostgresSecret _) _ _ E2) as S2.
  pose proof (invoke_done_stored CallSharedPasswordSecret _ _ E3) as S3.
  pose proof (invoke_done_stored (CallS3Secret _) _ _ E4) as S4.
  simpl in S1, S2, S3, S4.
  rewrite N1 in S2. rewrite N2, N1 in S3. rewrite N3, N2, N1 in S4, E4.
  exists w1, w2, w3. repeat split; try done.
  - congruence.
  - eauto using ApplyFrame_stored.
  - eauto using ApplyFrame_stored.
  - eauto using ApplyFrame_stored.
Qed.

(** Across the groups the job is queried only after the seven operations
    before it returned nil, in order, and their resources are stored. *)
Lemma provision_job_last (w : World) (r : option error) :
  let ns := Namespace (deployOptions w) in
  EvGet (KJob, ns, "kotsadm-minio") r ∈ emitted w (provision w) ->
  ∃ w1 w2 w3 w4 w5 w6 w7,
    ensureJWTSessionSecret ns w = Ret None w1
    ∧ ensurePostgresSecret (deployOptions w1) w1 = Ret None w2
    ∧ ensureSharedPasswordSecret w2 = Ret None w3
    ∧ ensureS3Secret ns w3 = Ret None w4
    ∧ ensureMinioConfigMap ns w4 = Ret None w5
    ∧ ensureMinioStatefulset ns w5 = Ret None w6
    ∧ ensureMinioService ns w6 = Ret None w7
    ∧ final (provision w) = final (ensureMinioJob ns w7)
    ∧ Forall (fun k => is_Some (objects w7 !! k))
        [(KSecret, ns, "kotsadm-session"); (KSecret, ns, "kotsadm-postgres");
         (KSecret, ns, "kotsadm-password"); (KSecret, ns, "kotsadm-minio");
         (KConfigMap, ns, "kotsadm-minio"); (KStatefulSet, ns, "kotsadm-minio");
         (KService, ns, "kotsadm-minio")].
Proof.
  intros ns. unfold provision. intros Hin.
  apply orWrap_elem in Hin; [|solve_frame|intros; solve_frame].
  destruct Hin as [Hin|(w4 & E & -> & Hin)];
    [by apply ensureSecrets_gets_secrets in Hin|].
  destruct (ensureSecrets_done _ _ E)
    as (w1 & w2 & w3 & E1 & E2 & E3 & E4 & N & S1 & S2 & S3 & S4).
  fold ns in E1, E4, N, S1, S2, S3, S4.
  rewrite bind_eq in Hin |- *. simpl in Hin |- *.
  apply orWrap_elem in Hin; [|solve_frame|intros; solve_frame].
  destruct Hin as [Hin|(w8 & E8 & _ & Hin)];
    [|simpl in Hin; rewrite emitted_ret_nil in Hin; by apply elem_of_nil in Hin].
  rewrite orWrap_last.
  revert Hin. generalize (deployOptions w4) N. intros o No. rewrite <- No.
  intros Hin.
  destruct (ensureMinio_job_last _ _ _ Hin)
    as (w5 & w6 & w7 & E5 & E6 & E7 & Hfin & S5 & S6 & S7).
  assert (F : ApplyFrame w4 w7).
  { eapply ApplyFrame_trans; [eapply ApplyFrame_ret; [exact E5|solve_frame]|].
    eapply ApplyFrame_trans; [eapply ApplyFrame_ret; [exact E6|solve_frame]|].
    eapply ApplyFrame_ret; [exact E7|solve_frame]. }
  rewrite <- No in *.
  exists w1, w2, w3, w4, w5, w6, w7. repeat split; try done.
  repeat constructor; eauto using ApplyFrame_stored.
Qed.


(** ** Hashing failures *)

Lemma invoke_run_queried (c : EnsureCall) (w : World) :
  c ≠ CallSharedPasswordSecret ->
  ∃ sh, queried sh = true
        ∧ EnsureRun (callKey c w) (getMessage c) w sh (invoke c w).
Proof.
  destruct c; simpl; try done; intros _;
    to_shape; ensure_run sh Hq Hrun; by exists sh.
Qed.

Lemma Quiet_touches (evs : list Event) (ev : Event) (k : ClusterResourceKey) :
  Quiet evs -> ev ∈ evs -> touches k ev = false.
Proof. intros Hq Hin. destruct (Quiet_elem _ _ Hq Hin). by destruct ev. Qed.

(** A run calls the API server about its own key only. *)
Lemma EnsureRun_touches (k k' : ClusterResourceKey) (gm : string) (w : World)
    (sh : Shape) (o : Outcome (option error)) (ev : Event) :
  EnsureRun k gm w sh o ->
  ev ∈ emitted w o ->
  k' ≠ k ->
  touches k' ev = false.
Proof.
  intros Hrun. destruct_run Hrun; intros Hin Hne;
    try pose proof (Quiet_touches _ ev k' H3);
    try pose proof (Quiet_touches _ ev k' H4);
    set_unfold in Hin;
    repeat match goal with
           | H : _ ∨ _ |- _ => destruct H
           | H : False |- _ => destruct H
           end; subst; simpl; auto;
    by rewrite bool_decide_eq_false_2.
Qed.

(** A refused password ends the run on the spot. *)
Lemma EnsureRun_refused (k : ClusterResourceKey) (gm : string) (w : World)
    (sh : Shape) (o : Outcome (option error)) (pw0 : string) (e0 : error) :
  EnsureRun k gm w sh o ->
  EvBcrypt pw0 (Some e0) ∈ emitted w o ->
  sh = Refused
  ∧ ∃ pre w',
      o = Ret (Some (withMessage e0 "failed to bcrypt shared password")) w'
      ∧ emitted w o = pre ++ [EvBcrypt pw0 (Some e0)]
      ∧ Quiet pre.
Proof.
  clear yamlEncode bcryptReject.
  intros Hrun. destruct_run Hrun; intros Hin;
    try (assert (EvBcrypt pw0 (Some e0) ∉ pre)
           by (intros Hx; by destruct (Quiet_elem _ _ H3 Hx)));
    try (assert (EvBcrypt pw0 (Some e0) ∉ mid)
           by (intros Hx; by destruct (Quiet_elem _ _ H4 Hx)));
    try (assert (EvBcrypt pw0 (Some e0) ∉ evs)
           by (intros Hx; by destruct (Quiet_elem _ _ H3 Hx)));
    set_unfold in Hin; try (exfalso; intuition congruence).
  destruct Hin as [?|[Hin|[]]]; [done|]. injection Hin as -> ->.
  split; [done|]. by exists pre, w'.
Qed.

Lemma invoke_no_refusal (c : EnsureCall) (w : World) (pw : string) (e : error) :
  c ≠ CallSharedPasswordSecret ->
  EvBcrypt pw (Some e) ∉ emitted w (invoke c w).
Proof.
  intros Hc Hin. destruct (invoke_run_queried c w Hc) as (sh & Hq & Hrun).
  by destruct (EnsureRun_refused _ _ _ _ _ _ _ Hrun Hin) as [-> _].
Qed.

Lemma invoke_touches (c : EnsureCall) (w : World) (k : ClusterResourceKey)
    (ev : Event) :
  ev ∈ emitted w (invoke c w) -> k ≠ callKey c w -> touches k ev = false.
Proof.
  destruct (invoke_run c w) as (sh & Hrun). eauto using EnsureRun_touches.
Qed.


(** A step of a pass either ends the pass, with its error wrapped, or
    hands over to the rest. *)
Lemma orWrap_run (step : M (option error)) (msg : string)
    (rest : M (option error)) (w : World) :
  ApplyFrame w (final (step w)) ->
  (∀ w1, ApplyFrame w1 (final (rest w1))) ->
  (emitted w (orWrap step msg rest w) = emitted w (step w)
   ∧ returned (orWrap step msg rest w)
     = (fun r => errors_Wrap r msg) <$> returned (step w)
   ∧ returned (step w) ≠ Some None)
  ∨ (∃ w1, step w = Ret None w1
           ∧ orWrap step msg rest w = rest w1
           ∧ emitted w (rest w1) = emitted w (step w) ++ emitted w1 (rest w1)).
Proof.
  intros Hs Hr.
  destruct (orWrap_cases step msg rest w)
    as [(s & w1 & E & Ho)|[(e & w1 & E & Ho)|(w1 & E & Ho)]]; rewrite E in *.
  - left. by rewrite Ho.
  - left. by rewrite Ho.
  - right. exists w1. split; [done|]. split; [done|].
    destruct (ApplyFrame_trace _ _ Hs) as [evs1 H1].
    destruct (ApplyFrame_trace _ _ (Hr w1)) as [evs2 H2]. simpl in H1.
    rewrite (emitted_app w (rest w1) (evs1 ++ evs2)) by by rewrite H2, H1, app_assoc.
    by rewrite (emitted_app w (Ret None w1) evs1), (emitted_app w1 (rest w1) evs2).
Qed.

(** A refused password inside the credential group: the two operations
    before returned nil, and the third stopped at the hash. *)
Lemma ensureSecrets_refused (w : World) (pw : string) (e : error) :
  EvBcrypt pw (Some e) ∈ emitted w (ensureSecrets w) ->
  ∃ w1 w2 w3 pre,
    ensureJWTSessionSecret (Namespace (deployOptions w)) w = Ret None w1
    ∧ ensurePostgresSecret (deployOptions w1) w1 = Ret None w2
    ∧ ensureSharedPasswordSecret w2
      = Ret (Some (withMessage e "failed to bcrypt shared password")) w3
    ∧ emitted w2 (ensureSharedPasswordSecret w2) = pre ++ [EvBcrypt pw (Some e)]
    ∧ Quiet pre.
Proof.
  unfold ensureSecrets. rewrite bind_eq. simpl. intros Hin.
  apply orWrap_elem in Hin; [|solve_frame|intros; solve_frame].
  destruct Hin as [Hin|(w1 & E1 & _ & Hin)];
    [by apply (invoke_no_refusal (CallJWTSessionSecret _)) in Hin|].
  rewrite bind_eq in Hin. simpl in Hin.
  apply orWrap_elem in Hin; [|solve_frame|intros; solve_frame].
  destruct Hin as [Hin|(w2 & E2 & _ & Hin)];
    [by apply (invoke_no_refusal (CallPostgresSecret _)) in Hin|].
  apply orWrap_elem in Hin; [|solve_frame|intros; solve_frame].
  destruct Hin as [Hin|(w3 & E3 & _ & Hin)].
  - destruct (ensureSharedPasswordSecret_run w2) as (sh & Hrun).
    destruct (EnsureRun_refused _ _ _ _ _ _ _ Hrun Hin) as (_ & pre & w3 & E3 & Hem3 & Hq).
    by exists w1, w2, w3, pre.
  - exfalso. rewrite bind_eq in Hin. simpl in Hin.
    apply orWrap_elem in Hin; [|solve_frame|intros; solve_frame].
    destruct Hin as [Hin|(w4 & E4 & _ & Hin)];
      [by apply (invoke_no_refusal (CallS3Secret _)) in Hin|].
    simpl in Hin. rewrite emitted_ret_nil in Hin. by apply elem_of_nil in Hin.
Qed.



Lemma orWrap_ok (step : M (option error)) (msg : string)
    (rest : M (option error)) (w w1 : World) :
  step w = Ret None w1 -> orWrap step msg rest w = rest w1.
Proof. unfold orWrap. rewrite bind_eq. by intros ->. Qed.

Lemma orWrap_err (step : M (option error)) (msg : string)
    (rest : M (option error)) (w w1 : World) (e : error) :
  step w = Ret (Some e) w1 ->
  orWrap step msg rest w = Ret (Some (withMessage e msg)) w1.
Proof. unfold orWrap. rewrite bind_eq. by intros ->. Qed.

Lemma emitted_ret {A B} (m : M A) (w w1 : World) (a : A) (b : B) :
  m w = Ret a w1 -> emitted w (Ret b w1) = emitted w (m w).
Proof. by intros ->. Qed.

Lemma emitted_chain {A B} (w w1 : World) (a : A) (o : Outcome B) :
  (∃ evs, trace w1 = trace w ++ evs) ->
  (∃ evs, trace (final o) = trace w1 ++ evs) ->
  emitted w o = emitted w (Ret a w1) ++ emitted w1 o.
Proof.
  intros [evs1 H1] [evs2 H2].
  rewrite (emitted_app w o (evs1 ++ evs2)) by by rewrite H2, H1, app_assoc.
  by rewrite (emitted_app w (Ret a w1) evs1), (emitted_app w1 o evs2).
Qed.

(** ** The apply path: passes *)

(** C5, as the code has it.  When the hash function refuses the password
    inside [ensureSecrets], that call is the last call of the pass: the
    error comes back wrapped by the operation and by the pass, neither the
    password secret nor the S3 secret is queried or created, and every
    field of the options but the plaintext is as it was.  What the two
    operations before it did stays done. *)
Theorem hashing_failure_ends_ensureSecrets (w : World) (pw : string) (e : error) :
  EvBcrypt pw (Some e) ∈ emitted w (ensureSecrets w) ->
  let ns := Namespace (deployOptions w) in
  returned (ensureSecrets w)
  = Some (Some (withMessage (withMessage e "failed to bcrypt shared password")
                            "failed to ensure shared password secret"))
  ∧ (∃ pre, emitted w (ensureSecrets w) = pre ++ [EvBcrypt pw (Some e)])
  ∧ (∀ ev, ev ∈ emitted w (ensureSecrets w) ->
       touches (KSecret, ns, "kotsadm-password") ev = false
       ∧ touches (KSecret, ns, "kotsadm-minio") ev = false)
  ∧ set_SharedPassword "" (deployOptions (final (ensureSecrets w)))
    = set_SharedPassword "" (deployOptions w).
Proof.
  intros Hin ns.
  destruct (ensureSecrets_refused w pw e Hin)
    as (w1 & w2 & w3 & pre & E1 & E2 & E3 & Hem3 & Hq).
  assert (F1 : ApplyFrame w w1) by (eapply ApplyFrame_ret; [exact E1|solve_frame]).
  assert (F2 : ApplyFrame w1 w2) by (eapply ApplyFrame_ret; [exact E2|solve_frame]).
  assert (F3 : ApplyFrame w2 w3) by (eapply ApplyFrame_ret; [exact E3|solve_frame]).
  assert (E : ensureSecrets w
              = Ret (Some (withMessage (withMessage e "failed to bcrypt shared password")
                                       "failed to ensure shared password secret")) w3).
  { unfold ensureSecrets. rewrite getDeployOptions_bind.
    rewrite (orWrap_ok _ _ _ _ _ E1), getDeployOptions_bind.
    rewrite (orWrap_ok _ _ _ _ _ E2). by rewrite (orWrap_err _ _ _ _ _ _ E3). }
  assert (Hem : emitted w (ensureSecrets w)
                = emitted w (ensureJWTSessionSecret ns w)
                  ++ emitted w1 (ensurePostgresSecret (deployOptions w1) w1)
                  ++ pre ++ [EvBcrypt pw (Some e)]).
  { rewrite E, <- Hem3.
    rewrite (emitted_chain w w1 (@None error)) by eauto using ApplyFrame_trace, ApplyFrame_trans.
    rewrite (emitted_chain w1 w2 (@None error)) by eauto using ApplyFrame_trace.
    by rewrite (emitted_ret _ _ _ _ _ E1), (emitted_ret _ _ _ _ _ E2),
               (emitted_ret _ _ _ _ _ E3). }
  split; [by rewrite E|]. split; [|split].
  - rewrite Hem. eexists. by rewrite !app_assoc.
  - intros ev. rewrite Hem. intros Hev. set_unfold in Hev.
    destruct Hev as [Hev|[Hev|[Hev|[->|[]]]]].
    + split; by apply (invoke_touches (CallJWTSessionSecret _) _ _ _ Hev).
    + split; apply (invoke_touches (CallPostgresSecret _) _ _ _ Hev);
        simpl; by rewrite (ApplyFrame_Namespace _ _ F1).
    + split; by eapply Quiet_touches.
    + done.
  - by destruct (ensureSecrets_frame w) as (_ & _ & _ & _ & _ & ? & _).
Qed.

(** C6.  The storage job is queried only after every operation before it
    returned nil, in the order of the pass: the four credential secrets,
    then config map, stateful set and service, whose resources are all
    stored by then; within [ensureMinio] taken alone the same holds of its
    three first operations.  A pass, a group or both fail fast: a failed
    call is the last call made, the error returned is that call's error
    wrapped, and no stored object is taken away. *)
Theorem apply_pass_ordered_and_fails_fast :
  (∀ (w : World) (r : option error),
     let ns := Namespace (deployOptions w) in
     EvGet (KJob, ns, "kotsadm-minio") r ∈ emitted w (provision w) ->
     ∃ w1 w2 w3 w4 w5 w6 w7,
       ensureJWTSessionSecret ns w = Ret None w1
       ∧ ensurePostgresSecret (deployOptions w1) w1 = Ret None w2
       ∧ ensureSharedPasswordSecret w2 = Ret None w3
       ∧ ensureS3Secret ns w3 = Ret None w4
       ∧ ensureMinioConfigMap ns w4 = Ret None w5
       ∧ ensureMinioStatefulset ns w5 = Ret None w6
       ∧ ensureMinioService ns w6 = Ret None w7
       ∧ final (provision w) = final (ensureMinioJob ns w7)
       ∧ Forall (fun k => is_Some (objects w7 !! k))
           [(KSecret, ns, "kotsadm-session"); (KSecret, ns, "kotsadm-postgres");
            (KSecret, ns, "kotsadm-password"); (KSecret, ns, "kotsadm-minio");
            (KConfigMap, ns, "kotsadm-minio"); (KStatefulSet, ns, "kotsadm-minio");
            (KService, ns, "kotsadm-minio")])
  ∧ (∀ (o : DeployOptions) (w : World) (r : option error),
       EvGet (KJob, Namespace o, "kotsadm-minio") r ∈ emitted w (ensureMinio o w) ->
       ∃ w1 w2 w3,
         ensureMinioConfigMap (Namespace o) w = Ret None w1
         ∧ ensureMinioStatefulset (Namespace o) w1 = Ret None w2
         ∧ ensureMinioService (Namespace o) w2 = Ret None w3
         ∧ final (ensureMinio o w) = final (ensureMinioJob (Namespace o) w3))
  ∧ FailsFast provision
  ∧ FailsFast ensureSecrets
  ∧ (∀ o, FailsFast (ensureMinio o)).
Proof.
  split; [exact provision_job_last|]. split; [|split; [|split]].
  - intros o w r Hin.
    destruct (ensureMinio_job_last o w r Hin) as (w1 & w2 & w3 & ? & ? & ? & ? & _).
    by exists w1, w2, w3.
  - apply PassRun_FailsFast; [apply provision_pass|apply provision_frame].
  - apply PassRun_FailsFast; [apply ensureSecrets_pass|apply ensureSecrets_frame].
  - intros o. apply PassRun_FailsFast; [apply ensureMinio_pass|apply ensureMinio_frame].
Qed.

(** C10.  The apply path writes no generated credential back.  Whatever
    [ensureSecrets] does, the namespace, the password hash, both S3 keys,
    the session key and the postgres password of the options are what they
    were, and so is a plaintext password that was set; the session and S3
    operations leave the whole struct alone, and the shared-password
    operation never sets the hash. *)
Theorem apply_writes_no_credential_back (w : World) :
  let o := deployOptions w in
  let o' := deployOptions (final (ensureSecrets w)) in
  (Namespace o' = Namespace o
   ∧ SharedPasswordBcrypt o' = SharedPasswordBcrypt o
   ∧ S3AccessKey o' = S3AccessKey o
   ∧ S3SecretKey o' = S3SecretKey o
   ∧ JWT o' = JWT o
   ∧ PostgresPassword o' = PostgresPassword o
   ∧ (SharedPassword o = "" ∨ SharedPassword o' = SharedPassword o))
  ∧ (∀ ns, deployOptions (final (ensureJWTSessionSecret ns w)) = o
           ∧ deployOptions (final (ensureS3Secret ns w)) = o)
  ∧ SharedPasswordBcrypt (deployOptions (final (ensureSharedPasswordSecret w)))
    = SharedPasswordBcrypt o.
Proof.
  intros o o'. split; [|split].
  - destruct (ensureSecrets_frame w) as (_ & _ & _ & _ & _ & Hd & Hp).
    fold o o' in Hd, Hp.
    repeat split; try done.
    + exact (f_equal Namespace Hd).
    + exact (f_equal SharedPasswordBcrypt Hd).
    + exact (f_equal S3AccessKey Hd).
    + exact (f_equal S3SecretKey Hd).
    + exact (f_equal JWT Hd).
    + exact (f_equal PostgresPassword Hd).
  - intros ns. split; to_shape; by ensure_frame Hf Hd Hop.
  - destruct (ensureSharedPasswordSecret_frame w) as (_ & _ & _ & _ & _ & Hd & _).
    exact (f_equal SharedPasswordBcrypt Hd).
Qed.


(** ** The render path *)

(** The documents stay as the code inserted them, and identifiers as they
    were drawn. *)
#[local] Arguments insert : simpl never.
#[local] Arguments uuid_String : simpl never.
#[local] Arguments uuid_fromBytes : simpl never.

(** Runs a render on the world of the goal, one case per way it can go. *)
Ltac run_render :=
  repeat first
    [ progress (rewrite ?bind_eq; simpl)
    | match goal with
      | |- context [yamlEncode ?obj] =>
          lazymatch goal with
          | H : yamlEncode obj = _ |- _ => rewrite H
          | _ => let bytes := fresh "bytes" in let e := fresh "e" in
                 let E := fresh "Eenc" in
                 destruct (yamlEncode obj) as [bytes [e|]] eqn:E
          end
      | |- context [bcryptReject ?pw] =>
          lazymatch goal with
          | H : bcryptReject pw = _ |- _ => rewrite H
          | _ => let e := fresh "e" in let E := fresh "Erej" in
                 destruct (bcryptReject pw) as [e|] eqn:E
          end
      | |- context [bool_decide ?P] =>
          first [ rewrite (bool_decide_eq_true_2 P) by done
                | rewrite (bool_decide_eq_false_2 P) by done
                | let H := fresh "Hd" in destruct (decide P) as [H|H];
                  [rewrite (bool_decide_eq_true_2 P H)
                  |rewrite (bool_decide_eq_false_2 P H)] ]
      end ].

Ltac close_world :=
  unfold mret, M_ret, record, advance, with_deployOptions, with_drawn;
  simpl; rewrite <- ?app_assoc; simpl; try done.

Lemma getMinioYAML_eq (ns : string) (w : World) :
  getMinioYAML ns w
  = Ret (encodeAll (minioDocuments ns) ∅) (advance 0 (encodeEvents (minioDocuments ns)) w).
Proof.
  unfold getMinioYAML, Encode. run_render; close_world.
Qed.


Lemma uuid_String_nonempty (u : list Z) : uuid_String u ≠ "".
Proof.
  unfold uuid_String. destruct (encodeHex (take 4 u)); simpl; discriminate.
Qed.

(** With nothing to generate, rendering the secrets is encoding them. *)
Lemma getSecretsYAML_settled (w : World) :
  settled (deployOptions w) ->
  getSecretsYAML w
  = Ret (encodeAll (secretDocuments (deployOptions w)) ∅)
        (advance 0 (encodeEvents (secretDocuments (deployOptions w))) w).
Proof.
  intros (Hh & Hs & Ha). unfold getSecretsYAML, Encode. run_render; close_world.
Qed.

Lemma lastFailure_spec (evs : list Event) (e : error) :
  lastFailure evs = Some e ->
  ∃ pre ev, evs = pre ++ [ev] ∧ NoFailure pre ∧ failure ev = Some e.
Proof.
  induction evs as [|ev evs IH]; [done|].
  destruct evs as [|ev' evs].
  - intros H. exists [], ev. repeat split; [constructor|done].
  - simpl. destruct (failure ev) eqn:Hev; [done|]. intros H.
    destruct (IH H) as (pre & ev0 & -> & Hn & He).
    exists (ev :: pre), ev0. split; [done|]. split; [by constructor|done].
Qed.

Lemma forallb_NoFailure (evs : list Event) :
  forallb (fun e => bool_decide (failure e = None)) evs = true -> NoFailure evs.
Proof.
  unfold NoFailure. rewrite forallb_forall, Forall_forall.
  intros H e He. apply list_elem_of_In in He. specialize (H e He).
  by apply bool_decide_eq_true_1 in H.
Qed.

Lemma RenderRun_intro (names : gset string) (w w' : World)
    (a : option (gmap string string) * option error) :
  (∃ evs, trace w' = trace w ++ evs
     ∧ match a with
       | (Some docs, None) =>
           dom docs = names
           ∧ forallb (fun e => bool_decide (failure e = None)) evs = true
       | (None, Some err) => ∃ e, lastFailure evs = Some e ∧ Wraps e err
       | _ => False
       end) ->
  RenderRun names w (Ret a w').
Proof.
  intros (evs & Ht & Ha). destruct a as [[docs|] [err|]]; try done.
  - destruct Ha as [Hd Hf]. eapply render_done; eauto using forallb_NoFailure.
  - destruct Ha as (e & Hl & Hw).
    destruct (lastFailure_spec _ _ Hl) as (pre & ev & -> & Hn & He).
    by eapply render_failed.
Qed.

Ltac close_render :=
  apply RenderRun_intro; simpl; rewrite <- ?app_assoc; simpl;
  eexists; split; [reflexivity|];
  lazymatch goal with
  | |- ∃ _, _ => eexists; split; [reflexivity|apply Wraps_more, Wraps_here]
  | |- _ ∧ _ => split; [rewrite !dom_insert_L, dom_empty_L; set_solver|reflexivity]
  end.

Lemma getSecretsYAML_run (w : World) :
  RenderRun {["secret-jwt.yaml"; "secret-pg.yaml"; "secret-shared-password.yaml";
              "secret-s3.yaml"]} w (getSecretsYAML w).
Proof.
  unfold getSecretsYAML, Encode, bcrypt_GenerateFromPassword.
  run_render; close_render.
Qed.

Lemma getMinioYAML_run (ns : string) (w : World) :
  RenderRun {["minio-configmap.yaml"; "minio-statefulset.yaml"; "minio-service.yaml";
              "minio-job.yaml"]} w (getMinioYAML ns w).
Proof.
  unfold getMinioYAML, Encode. run_render; close_render.
Qed.


(** What one call of [getSecretsYAML] from [w] that returned [r] in [w']
    did: nothing to the cluster or to what the caller supplied, at most one
    hash and one identifier per empty field; and when the documents came
    back, every field is filled with what was generated and the documents
    are the encoding of the options as they are now. *)
Definition SecretsRendered (w : World)
    (r : option (gmap string string) * option error) (w' : World) : Prop :=
  let o := deployOptions w in
  let o' := deployOptions w' in
  let evs := drop (length (trace w)) (trace w') in
  cluster w' = cluster w
  ∧ operator w' = operator w
  ∧ Namespace o' = Namespace o
  ∧ JWT o' = JWT o
  ∧ PostgresPassword o' = PostgresPassword o
  ∧ SharedPassword o' = SharedPassword o
  ∧ (SharedPasswordBcrypt o = "" ∨ SharedPasswordBcrypt o' = SharedPasswordBcrypt o)
  ∧ (S3SecretKey o = "" ∨ S3SecretKey o' = S3SecretKey o)
  ∧ (S3AccessKey o = "" ∨ S3AccessKey o' = S3AccessKey o)
  ∧ (bcryptCalls evs ≤ emptyFields [SharedPasswordBcrypt o])%nat
  ∧ (uuidDraws evs ≤ emptyFields [S3SecretKey o; S3AccessKey o])%nat
  ∧ match r with
    | (Some docs, None) =>
        settled o'
        ∧ encodeAll (secretDocuments o') ∅ = (Some docs, None)
        ∧ bcryptCalls evs = emptyFields [SharedPasswordBcrypt o]
        ∧ uuidDraws evs = emptyFields [S3SecretKey o; S3AccessKey o]
        ∧ (SharedPasswordBcrypt o = "" ->
           SharedPasswordBcrypt o'
           = "$2a$" +:+ bcryptDigest 10 (entropy w (drawn w)) (SharedPassword o))
        ∧ (S3SecretKey o = "" -> EvUuid (S3SecretKey o') ∈ evs)
        ∧ (S3AccessKey o = "" -> EvUuid (S3AccessKey o') ∈ evs)
    | _ => True
    end.

Ltac render_leaf :=
  unfold SecretsRendered, cluster, settled, bcryptCalls, uuidDraws, emptyFields;
  simpl; rewrite <- ?app_assoc; simpl; rewrite ?drop_app_length; simpl;
  run_render;
  repeat split;
  try first [ done | by left | by right | lia | apply uuid_String_nonempty
            | intros _; apply list_elem_of_In; simpl; tauto ].

Lemma getSecretsYAML_rendered (w : World) :
  match getSecretsYAML w with
  | Ret r w' => SecretsRendered w r w'
  | Halt _ _ => False
  end.
Proof.
  unfold getSecretsYAML, Encode, bcrypt_GenerateFromPassword.
  run_render; unfold mret, M_ret; render_leaf.
Qed.


Lemma getSecretsYAML_returns (w : World) :
  ∃ r w', getSecretsYAML w = Ret r w' ∧ SecretsRendered w r w'.
Proof.
  pose proof (getSecretsYAML_rendered w) as H.
  destruct (getSecretsYAML w) as [r w'|]; [by exists r, w'|done].
Qed.

Lemma RenderRun_failure (names : gset string) (w : World)
    (o : Outcome (option (gmap string string) * option error)) (ev : Event) (e : error) :
  RenderRun names w o ->
  ev ∈ emitted w o ->
  failure ev = Some e ->
  ∃ err pre, returned o = Some (None, Some err) ∧ Wraps e err
             ∧ emitted w o = pre ++ [ev].
Proof.
  intros [w' docs evs H1 H2 H3|w' pre ev0 e0 err H1 H2 H3 H4] Hin He;
    (erewrite emitted_app in Hin |- *; [|simpl; eassumption..]).
  - exfalso. eapply NoFailure_elem; eauto.
  - set_unfold in Hin. destruct Hin as [Hin|[->|[]]].
    + exfalso. eapply NoFailure_elem; eauto.
    + exists err, pre. repeat split. congruence.
Qed.

Lemma RenderRun_returned (names : gset string) (w : World)
    (o : Outcome (option (gmap string string) * option error)) :
  RenderRun names w o ->
  (∃ docs, returned o = Some (Some docs, None) ∧ dom docs = names
           ∧ NoFailure (emitted w o))
  ∨ (∃ err e pre ev, returned o = Some (None, Some err)
       ∧ emitted w o = pre ++ [ev] ∧ failure ev = Some e ∧ Wraps e err).
Proof.
  intros [w' docs evs H1 H2 H3|w' pre ev0 e0 err H1 H2 H3 H4];
    (erewrite emitted_app; [|simpl; eassumption]).
  - left. by exists docs.
  - right. by exists err, e0, pre, ev0.
Qed.

(** ** The render path: the claims *)

(** C8.  A render returns all of its documents or none: whenever a call
    to the serializer fails, that call is the last one made and the render
    returns a nil map with the serializer's error, wrapped; and whatever
    happens the result is either a map with exactly the four documents and
    no error, or a nil map and an error. *)
Theorem render_returns_no_partial_set (w : World) (ns : string) :
  (∀ obj e, EvEncode obj (Some e) ∈ emitted w (getSecretsYAML w) ->
     ∃ err pre, returned (getSecretsYAML w) = Some (None, Some err) ∧ Wraps e err
                ∧ emitted w (getSecretsYAML w) = pre ++ [EvEncode obj (Some e)])
  ∧ (∀ obj e, EvEncode obj (Some e) ∈ emitted w (getMinioYAML ns w) ->
     ∃ err pre, returned (getMinioYAML ns w) = Some (None, Some err) ∧ Wraps e err
                ∧ emitted w (getMinioYAML ns w) = pre ++ [EvEncode obj (Some e)])
  ∧ ((∃ docs, returned (getSecretsYAML w) = Some (Some docs, None)
        ∧ dom docs = {["secret-jwt.yaml"; "secret-pg.yaml";
                       "secret-shared-password.yaml"; "secret-s3.yaml"]})
     ∨ (∃ err, returned (getSecretsYAML w) = Some (None, Some err)))
  ∧ ((∃ docs, returned (getMinioYAML ns w) = Some (Some docs, None)
        ∧ dom docs = {["minio-configmap.yaml"; "minio-statefulset.yaml";
                       "minio-service.yaml"; "minio-job.yaml"]})
     ∨ (∃ err, returned (getMinioYAML ns w) = Some (None, Some err))).
Proof.
  pose proof (getSecretsYAML_run w) as Hs.
  pose proof (getMinioYAML_run ns w) as Hm.
  split; [|split; [|split]].
  - intros obj e Hin. by eapply RenderRun_failure.
  - intros obj e Hin. by eapply RenderRun_failure.
  - destruct (RenderRun_returned _ _ _ Hs) as [(docs & ? & ? & _)|(err & ? & ? & ? & ? & _)];
      [left; by exists docs|right; by exists err].
  - destruct (RenderRun_returned _ _ _ Hm) as [(docs & ? & ? & _)|(err & ? & ? & ? & ? & _)];
      [left; by exists docs|right; by exists err].
Qed.


Lemma emptyFields_none (l : list string) :
  Forall (fun x => x ≠ "") l -> emptyFields l = 0%nat.
Proof.
  unfold emptyFields. induction 1 as [|x l Hx _ IH]; [done|].
  simpl. by rewrite bool_decide_eq_false_2.
Qed.

(** C7.  With hash and both S3 keys supplied nothing is generated: the
    render of the secrets returns, leaves the options as they are, and
    returns the same documents from any two worlds holding the same
    options, whatever their random source; the render of the storage
    service does so for any namespace.  (The session key and the postgres
    password are rendered as supplied, empty or not.) *)
Theorem render_deterministic_given_full_input (w1 w2 : World) (ns : string) :
  deployOptions w1 = deployOptions w2 ->
  SharedPasswordBcrypt (deployOptions w1) ≠ "" ->
  S3SecretKey (deployOptions w1) ≠ "" ->
  S3AccessKey (deployOptions w1) ≠ "" ->
  returned (getSecretsYAML w1) = returned (getSecretsYAML w2)
  ∧ is_Some (returned (getSecretsYAML w1))
  ∧ deployOptions (final (getSecretsYAML w1)) = deployOptions w1
  ∧ uuidDraws (emitted w1 (getSecretsYAML w1)) = 0%nat
  ∧ bcryptCalls (emitted w1 (getSecretsYAML w1)) = 0%nat
  ∧ returned (getMinioYAML ns w1) = returned (getMinioYAML ns w2)
  ∧ is_Some (returned (getMinioYAML ns w1)).
Proof.
  intros Ho Hh Hs Ha.
  assert (S1 : settled (deployOptions w1)) by done.
  assert (S2 : settled (deployOptions w2)) by by rewrite <- Ho.
  pose proof (getSecretsYAML_rendered w1) as Hr.
  rewrite (getSecretsYAML_settled w1 S1) in *.
  rewrite (getSecretsYAML_settled w2 S2), !getMinioYAML_eq.
  destruct Hr as (_ & _ & _ & _ & _ & _ & _ & _ & _ & Hb & Hu & _).
  rewrite emptyFields_none in Hb, Hu by by repeat constructor.
  unfold emitted. cbn [returned final].
  split; [by rewrite Ho|]. split; [by eexists|]. split; [done|].
  split; [lia|]. split; [lia|]. split; [done|by eexists].
Qed.

(** C9.  [getSecretsYAML] writes what it generates into the options it
    is given: after a call that returned its documents the hash and both
    S3 keys are non-empty, a field that was empty holds the value generated
    in this call, and any later call on these options generates nothing,
    leaves them alone and returns the same documents. *)
Theorem render_writes_back_and_repeats (w w' : World) (docs : gmap string string) :
  getSecretsYAML w = Ret (Some docs, None) w' ->
  let o := deployOptions w in
  let o' := deployOptions w' in
  SharedPasswordBcrypt o' ≠ "" ∧ S3SecretKey o' ≠ "" ∧ S3AccessKey o' ≠ ""
  ∧ (SharedPasswordBcrypt o = "" ->
     SharedPasswordBcrypt o'
     = "$2a$" +:+ bcryptDigest 10 (entropy w (drawn w)) (SharedPassword o))
  ∧ (S3SecretKey o = "" -> EvUuid (S3SecretKey o') ∈ emitted w (getSecretsYAML w))
  ∧ (S3AccessKey o = "" -> EvUuid (S3AccessKey o') ∈ emitted w (getSecretsYAML w))
  ∧ ∀ w2, deployOptions w2 = o' ->
      returned (getSecretsYAML w2) = Some (Some docs, None)
      ∧ deployOptions (final (getSecretsYAML w2)) = o'
      ∧ drawn (final (getSecretsYAML w2)) = drawn w2.
Proof.
  intros E o o'.
  pose proof (getSecretsYAML_rendered w) as Hr. rewrite E in Hr.
  destruct Hr as (_ & _ & _ & _ & _ & _ & _ & _ & _ & _ & _
                  & Hset & Henc & _ & _ & Hh & Hs & Ha).
  rewrite E. unfold emitted. simpl. fold o o' in Hset, Henc, Hh, Hs, Ha.
  destruct Hset as (? & ? & ?).
  split; [done|]. split; [done|]. split; [done|].
  split; [done|]. split; [done|]. split; [done|].
  intros w2 H2.
  rewrite getSecretsYAML_settled by (rewrite H2; by repeat split).
  cbn [returned final]. rewrite H2, Henc. by repeat split.
Qed.

(** C3, as the code has it.  In render mode a call that returns its
    documents leaves hash and both S3 keys non-empty and generated exactly
    one value per field that was empty; however the call ends, a field the
    caller supplied is unchanged, and the session key and the postgres
    password are never touched, empty or not.  In apply mode [ensureSecrets]
    populates no credential field at all. *)
Theorem generate_once_in_render_only (w : World) :
  let o := deployOptions w in
  (let out := getSecretsYAML w in
   let o' := deployOptions (final out) in
   (∀ docs, returned out = Some (Some docs, None) ->
      SharedPasswordBcrypt o' ≠ "" ∧ S3SecretKey o' ≠ "" ∧ S3AccessKey o' ≠ ""
      ∧ bcryptCalls (emitted w out) = emptyFields [SharedPasswordBcrypt o]
      ∧ uuidDraws (emitted w out) = emptyFields [S3SecretKey o; S3AccessKey o])
   ∧ JWT o' = JWT o
   ∧ PostgresPassword o' = PostgresPassword o
   ∧ (SharedPasswordBcrypt o = "" ∨ SharedPasswordBcrypt o' = SharedPasswordBcrypt o)
   ∧ (S3SecretKey o = "" ∨ S3SecretKey o' = S3SecretKey o)
   ∧ (S3AccessKey o = "" ∨ S3AccessKey o' = S3AccessKey o))
  ∧ (let o' := deployOptions (final (ensureSecrets w)) in
     SharedPasswordBcrypt o' = SharedPasswordBcrypt o
     ∧ S3SecretKey o' = S3SecretKey o
     ∧ S3AccessKey o' = S3AccessKey o
     ∧ JWT o' = JWT o
     ∧ PostgresPassword o' = PostgresPassword o).
Proof.
  intros o. split.
  - destruct (getSecretsYAML_returns w) as (r & w' & E & Hr).
    rewrite E. simpl.
    destruct Hr as (_ & _ & _ & Hj & Hp & _ & Hh & Hs & Ha & _ & _ & Hok).
    split; [|by repeat split].
    intros docs [= ->]. by destruct Hok as ((? & ? & ?) & _ & ? & ? & _).
  - destruct (ensureSecrets_frame w) as (_ & _ & _ & _ & _ & Hd & _).
    fold o in Hd. simpl. repeat split.
    + exact (f_equal SharedPasswordBcrypt Hd).
    + exact (f_equal S3SecretKey Hd).
    + exact (f_equal S3AccessKey Hd).
    + exact (f_equal JWT Hd).
    + exact (f_equal PostgresPassword Hd).
Qed.


(** ** The hash in apply mode *)

Lemma bcryptCalls_app (l1 l2 : list Event) :
  bcryptCalls (l1 ++ l2) = (bcryptCalls l1 + bcryptCalls l2)%nat.
Proof. unfold bcryptCalls. by rewrite List.filter_app, length_app. Qed.

Lemma bcryptCalls_prompt (typed : list Key) : bcryptCalls (map EvPrompt typed) = 0%nat.
Proof. by induction typed. Qed.

(** The shared shape with a ready-made resource calls the cluster and
    nothing else. *)
Lemma ensureWith_pure_bcryptCalls (kind : Kind) (ns name gm cm : string)
    (obj : Resource) (w : World) :
  bcryptCalls (emitted w (ensureWith kind ns name gm cm (mret obj) w)) = 0%nat.
Proof.
  unfold ensureWith. rewrite bind_eq. unfold client_Get. simpl.
  destruct (apiserver_get w (kind, ns, name)) as [o [e|]]; simpl;
    [|unfold emitted; simpl; by rewrite drop_app_length].
  destruct (IsNotFound e); simpl;
    [|unfold emitted; simpl; by rewrite drop_app_length].
  rewrite !bind_eq. unfold client_Create. simpl. rewrite bind_eq. simpl.
  destruct (apiserver_refuses _ _ _ _); simpl; unfold emitted; simpl;
    by rewrite <- app_assoc, drop_app_length.
Qed.

Lemma ensureSharedPasswordSecret_settled_hashes (w : World) :
  SharedPassword (deployOptions w) ≠ "" ->
  bcryptCalls (emitted w (ensureSharedPasswordSecret w)) = 1%nat.
Proof.
  intros Hpw. rewrite ensureSharedPasswordSecret_settled by done.
  destruct (bcryptReject _) as [e|].
  - unfold emitted. cbn. by rewrite drop_app_length.
  - rewrite (emitted_chain w (advance 1 [EvBcrypt (SharedPassword (deployOptions w)) None] w) tt).
    + rewrite bcryptCalls_app, ensureWith_pure_bcryptCalls.
      unfold emitted. cbn. by rewrite drop_app_length.
    + by eexists.
    + ensure_frame Hf Hd Hop. by apply ApplyFrame_trace.
Qed.

(** The operation calls the hash function once, unless the process stops
    at the prompt before it. *)
Lemma ensureSharedPasswordSecret_hashes (w : World) :
  (bcryptCalls (emitted w (ensureSharedPasswordSecret w)) ≤ 1)%nat
  ∧ (is_Some (returned (ensureSharedPasswordSecret w)) ->
     bcryptCalls (emitted w (ensureSharedPasswordSecret w)) = 1%nat).
Proof.
  destruct (decide (SharedPassword (deployOptions w) = "")) as [Hpw|Hpw];
    [|rewrite ensureSharedPasswordSecret_settled_hashes by done; split; [lia|done]].
  destruct (ensureSharedPasswordSecret_prompting w Hpw)
    as [(s & typed & rest & Hop & ->)|(line & typed & rest & Hop & Hv & ->)].
  - unfold emitted. cbn. rewrite drop_app_length, bcryptCalls_prompt.
    split; [lia|]. by intros [? ?].
  - set (w1 := with_deployOptions _ _).
    assert (H1 : bcryptCalls (emitted w1 (ensureSharedPasswordSecret w1)) = 1%nat).
    { apply ensureSharedPasswordSecret_settled_hashes. subst w1. cbn.
      by apply validateSharedPassword_nonempty. }
    rewrite (emitted_chain w w1 tt).
    + rewrite bcryptCalls_app, H1.
      unfold emitted. subst w1. cbn. rewrite drop_app_length, bcryptCalls_prompt.
      split; [lia|done].
    + subst w1. by eexists.
    + apply ApplyFrame_trace, ensureSharedPasswordSecret_frame.
Qed.

(** C4, as the code has it.  Neither mode calls the hash function more
    than once in one invocation.  The render calls it only when the hash
    field is empty, so a render over options whose hash is there never
    computes it again.  [ensureSharedPasswordSecret] calls it exactly once
    whenever it returns, whatever the hash field holds: it does not read
    that field and does not write it. *)
Theorem hash_at_most_once (w : World) :
  (bcryptCalls (emitted w (getSecretsYAML w)) ≤ 1)%nat
  ∧ (bcryptCalls (emitted w (ensureSharedPasswordSecret w)) ≤ 1)%nat
  ∧ (SharedPasswordBcrypt (deployOptions w) = ""
     ∨ bcryptCalls (emitted w (getSecretsYAML w)) = 0%nat)
  ∧ (returned (ensureSharedPasswordSecret w) = None
     ∨ bcryptCalls (emitted w (ensureSharedPasswordSecret w)) = 1%nat)
  ∧ SharedPasswordBcrypt (deployOptions (final (ensureSharedPasswordSecret w)))
    = SharedPasswordBcrypt (deployOptions w).
Proof.
  destruct (getSecretsYAML_returns w) as (r & w' & E & Hr).
  destruct Hr as (_ & _ & _ & _ & _ & _ & _ & _ & _ & Hb & _).
  destruct (ensureSharedPasswordSecret_hashes w) as [Hle Hone].
  rewrite E. unfold emitted at 1 3. cbn [final].
  unfold emptyFields in Hb. cbn [List.filter] in Hb.
  split; [|split; [done|split; [|split]]].
  - destruct (bool_decide _); simpl in Hb; lia.
  - destruct (decide (SharedPasswordBcrypt (deployOptions w) = "")) as [Hd|Hd];
      [by left|right].
    rewrite bool_decide_eq_false_2 in Hb by done. simpl in Hb. lia.
  - destruct (returned (ensureSharedPasswordSecret w)) eqn:Hret; [right|by left].
    apply Hone. by eexists.
  - destruct (ensureSharedPasswordSecret_frame w) as (_ & _ & _ & _ & _ & Hd & _).
    exact (f_equal SharedPasswordBcrypt Hd).
Qed.


End Provisioning.

(** * Concrete worlds *)

(** A hash function that refuses what [bcrypt] refuses, passwords of more
    than 72 bytes, and a digest that stands in for the real one. *)
Definition sampleReject (password : string) : option error :=
  if (72 <? String.length password)%nat
  then Some (errorString "bcrypt: password length exceeds 72 bytes")
  else None.

Definition sampleDigest (cost : Z) (salt : list Z) (password : string) : string :=
  encodeHex salt +:+ "." +:+ password.

(** A serializer that writes kind-free documents and never fails, and one
    that fails on every S3 secret. *)
Definition sampleEncode (obj : Resource) : string * option error :=
  ("name: " +:+ res_name obj +:+ " namespace: " +:+ res_namespace obj
   +:+ foldr (fun s acc => " data: " +:+ s +:+ acc) "" (res_payload obj),
   None).

Definition failingEncode (obj : Resource) : string * option error :=
  if bool_decide (res_name obj = "kotsadm-minio")
  then ("", Some (errorString "yaml: unsupported field"))
  else sampleEncode obj.

(** A namespace with nothing in it and a healthy API server; the n-th read
    of the random source yields sixteen bytes of value n. *)
Definition freshWorld (o : DeployOptions) (input : list Key) : World :=
  mkWorld ∅ (fun _ => None) (fun _ => None)
          (fun n => replicate 16 (Z.of_nat n)) 0 input o [].

Definition noCredentials : DeployOptions :=
  mkDeployOptions "ns1" "" "" "" "" "" "".

Definition plaintextOnly : DeployOptions :=
  mkDeployOptions "ns1" "hunter22" "" "" "" "" "pgpass".

Definition hashSupplied : DeployOptions :=
  mkDeployOptions "ns1" "hunter22" "$2a$10$suppliedbythecaller" "" "" "" "pgpass".

Definition allSupplied : DeployOptions :=
  mkDeployOptions "ns1" "hunter22" "$2a$10$suppliedbythecaller" "access" "secret"
                  "jwt" "pgpass".

Definition longPassword : string :=
  "0123456789012345678901234567890123456789012345678901234567890123456789012".

Definition tooLong : DeployOptions :=
  mkDeployOptions "ns1" longPassword "" "" "" "" "pgpass".

(** ** The scenarios of the specification *)

(** A fresh namespace and no credentials: the operator is asked (a line
    that is too short is not taken), four secrets are created, and a second
    pass creates nothing and succeeds. *)
Example fresh_namespace_four_secrets :
  let w := freshWorld noCredentials [Enter "short"; Enter "s3cretpass"] in
  let once := ensureSecrets sampleReject sampleDigest w in
  let again := ensureSecrets sampleReject sampleDigest (final once) in
  returned once = Some None
  ∧ length (List.filter isCreate (emitted w once)) = 4%nat
  ∧ size (objects (final once)) = 4%nat
  ∧ SharedPassword (deployOptions (final once)) = "s3cretpass"
  ∧ returned again = Some None
  ∧ List.filter isCreate (emitted (final once) again) = []
  ∧ bool_decide (objects (final again) = objects (final once)) = true.
Proof. cbv zeta. repeat apply conj; vm_compute; reflexivity. Qed.

(** The whole pass on a fresh namespace: eight creates, the job last. *)
Example fresh_namespace_whole_pass :
  let w := freshWorld plaintextOnly [] in
  let o := provision sampleReject sampleDigest w in
  returned o = Some None
  ∧ map (fun e => match e with EvCreate k _ _ => Some k | _ => None end)
        (List.filter isCreate (emitted w o))
    = map Some [(KSecret, "ns1", "kotsadm-session"); (KSecret, "ns1", "kotsadm-postgres");
                (KSecret, "ns1", "kotsadm-password"); (KSecret, "ns1", "kotsadm-minio");
                (KConfigMap, "ns1", "kotsadm-minio"); (KStatefulSet, "ns1", "kotsadm-minio");
                (KService, "ns1", "kotsadm-minio"); (KJob, "ns1", "kotsadm-minio")].
Proof. cbv zeta. split; vm_compute; reflexivity. Qed.

(** A query that is refused for lack of permission: no create, and the
    error comes back wrapped. *)
Example forbidden_query_is_fatal :
  let forbidden := StatusError StatusReasonForbidden "secrets is forbidden" in
  let w := mkWorld ∅ (fun _ => Some forbidden) (fun _ => None)
                   (fun n => replicate 16 (Z.of_nat n)) 0 [] plaintextOnly [] in
  ensureS3Secret "ns1" w
  = Ret (Some (withMessage forbidden "failed to get existing s3 secret"))
        (record (EvGet (KSecret, "ns1", "kotsadm-minio") (Some forbidden)) w).
Proof. reflexivity. Qed.

(** A serializer that fails on the last secret: no document comes back. *)
Example failing_serializer_no_documents :
  returned (getSecretsYAML sampleReject sampleDigest failingEncode
              (freshWorld plaintextOnly []))
  = Some (None, Some (withMessage (errorString "yaml: unsupported field")
                                  "failed to marshal s3 secret")).
Proof. vm_compute. reflexivity. Qed.

(** ** Where the code differs from the specification *)

(** C3, against the claim as stated.  With only a plaintext password
    supplied, a render that returns its documents leaves the session key
    empty, and a pass of [ensureSecrets] that returns nil leaves the session
    key, the hash and both S3 keys empty. *)
Lemma empty_credentials_stay_empty :
  JWT (deployOptions (freshWorld plaintextOnly [])) = ""
  ∧ snd <$> returned (getSecretsYAML sampleReject sampleDigest sampleEncode
                        (freshWorld plaintextOnly [])) = Some None
  ∧ JWT (deployOptions (final (getSecretsYAML sampleReject sampleDigest sampleEncode
                                 (freshWorld plaintextOnly [])))) = ""
  ∧ returned (ensureSecrets sampleReject sampleDigest (freshWorld plaintextOnly []))
    = Some None
  ∧ JWT (deployOptions (final (ensureSecrets sampleReject sampleDigest
                                 (freshWorld plaintextOnly [])))) = ""
  ∧ SharedPasswordBcrypt
      (deployOptions (final (ensureSecrets sampleReject sampleDigest
                               (freshWorld plaintextOnly [])))) = ""
  ∧ S3AccessKey (deployOptions (final (ensureSecrets sampleReject sampleDigest
                                         (freshWorld plaintextOnly [])))) = ""
  ∧ S3SecretKey (deployOptions (final (ensureSecrets sampleReject sampleDigest
                                         (freshWorld plaintextOnly [])))) = "".
Proof. repeat apply conj; vm_compute; reflexivity. Qed.

(** C4, against the claim as stated.  With the hash supplied by the
    caller, [ensureSharedPasswordSecret] computes a hash from the plaintext
    all the same, the secret it creates holds that hash and not the
    caller's, and a second call computes it again. *)
Lemma apply_mode_hashes_again :
  SharedPasswordBcrypt (deployOptions (freshWorld hashSupplied []))
  = "$2a$10$suppliedbythecaller"
  ∧ List.filter isBcrypt
      (emitted (freshWorld hashSupplied [])
         (ensureSharedPasswordSecret sampleReject sampleDigest
            (freshWorld hashSupplied [])))
    = [EvBcrypt "hunter22" None]
  ∧ res_payload <$> objects (final (ensureSharedPasswordSecret sampleReject sampleDigest
                                      (freshWorld hashSupplied [])))
                    !! (KSecret, "ns1", "kotsadm-password")
    = Some ["$2a$00000000000000000000000000000000.hunter22"]
  ∧ bcryptCalls
      (emitted (freshWorld hashSupplied [])
         ((_ ← ensureSharedPasswordSecret sampleReject sampleDigest;
           ensureSharedPasswordSecret sampleReject sampleDigest)
            (freshWorld hashSupplied [])))
    = 2%nat.
Proof. repeat apply conj; vm_compute; reflexivity. Qed.

(** C5, against the claim as stated.  When the hash function refuses
    the password, [ensureSecrets] returns the hashing error after it has
    created the session secret and the postgres secret. *)
Lemma hashing_failure_after_two_creates :
  returned (ensureSecrets sampleReject sampleDigest (freshWorld tooLong []))
  = Some (Some (withMessage
                  (withMessage (errorString "bcrypt: password length exceeds 72 bytes")
                               "failed to bcrypt shared password")
                  "failed to ensure shared password secret"))
  ∧ creations (KSecret, "ns1", "kotsadm-session")
      (emitted (freshWorld tooLong [])
         (ensureSecrets sampleReject sampleDigest (freshWorld tooLong []))) = 1%nat
  ∧ creations (KSecret, "ns1", "kotsadm-postgres")
      (emitted (freshWorld tooLong [])
         (ensureSecrets sampleReject sampleDigest (freshWorld tooLong []))) = 1%nat
  ∧ size (objects (final (ensureSecrets sampleReject sampleDigest
                            (freshWorld tooLong [])))) = 2%nat.
Proof. repeat apply conj; vm_compute; reflexivity. Qed.

(** ** The theorems at work *)

Lemma hashing_failure_witness :
  EvBcrypt longPassword (Some (errorString "bcrypt: password length exceeds 72 bytes"))
  ∈ emitted (freshWorld tooLong [])
      (ensureSecrets sampleReject sampleDigest (freshWorld tooLong []))
  ∧ ∃ pre,
      emitted (freshWorld tooLong [])
        (ensureSecrets sampleReject sampleDigest (freshWorld tooLong []))
      = pre ++ [EvBcrypt longPassword
                  (Some (errorString "bcrypt: password length exceeds 72 bytes"))].
Proof.
  assert (H : EvBcrypt longPassword
                (Some (errorString "bcrypt: password length exceeds 72 bytes"))
              ∈ emitted (freshWorld tooLong [])
                  (ensureSecrets sampleReject sampleDigest (freshWorld tooLong []))).
  { apply list_elem_of_In. vm_compute. tauto. }
  split; [exact H|].
  exact (proj1 (proj2 (hashing_failure_ends_ensureSecrets
                         sampleReject sampleDigest _ _ _ H))).
Defined.

(** The same options in a world whose random source is somewhere else. *)
Definition otherWorld (o : DeployOptions) : World :=
  mkWorld ∅ (fun _ => None) (fun _ => None)
          (fun n => replicate 16 255) 7 [] o [].

Lemma render_deterministic_witness :
  (deployOptions (freshWorld allSupplied []) = deployOptions (otherWorld allSupplied)
   ∧ SharedPasswordBcrypt (deployOptions (freshWorld allSupplied [])) ≠ ""
   ∧ S3SecretKey (deployOptions (freshWorld allSupplied [])) ≠ ""
   ∧ S3AccessKey (deployOptions (freshWorld allSupplied [])) ≠ "")
  ∧ returned (getSecretsYAML sampleReject sampleDigest sampleEncode
                (freshWorld allSupplied []))
    = returned (getSecretsYAML sampleReject sampleDigest sampleEncode
                  (otherWorld allSupplied)).
Proof.
  assert (H : deployOptions (freshWorld allSupplied [])
              = deployOptions (otherWorld allSupplied)
              ∧ SharedPasswordBcrypt (deployOptions (freshWorld allSupplied [])) ≠ ""
              ∧ S3SecretKey (deployOptions (freshWorld allSupplied [])) ≠ ""
              ∧ S3AccessKey (deployOptions (freshWorld allSupplied [])) ≠ "").
  { repeat apply conj; [reflexivity|simpl; discriminate..]. }
  split; [exact H|].
  destruct H as (H1 & H2 & H3 & H4).
  exact (proj1 (render_deterministic_given_full_input
                  sampleReject sampleDigest sampleEncode _ _ "ns1" H1 H2 H3 H4)).
Defined.

(** What the first render of [plaintextOnly] leaves behind. *)
Definition renderedWorld : World :=
  final (getSecretsYAML sampleReject sampleDigest sampleEncode
           (freshWorld plaintextOnly [])).

Definition renderedDocs : gmap string string :=
  match returned (getSecretsYAML sampleReject sampleDigest sampleEncode
                    (freshWorld plaintextOnly [])) with
  | Some (Some docs, _) => docs
  | _ => ∅
  end.

Lemma render_repeats_witness :
  getSecretsYAML sampleReject sampleDigest sampleEncode (freshWorld plaintextOnly [])
  = Ret (Some renderedDocs, None) renderedWorld
  ∧ S3AccessKey (deployOptions renderedWorld) ≠ ""
  ∧ returned (getSecretsYAML sampleReject sampleDigest sampleEncode renderedWorld)
    = Some (Some renderedDocs, None).
Proof.
  assert (H : getSecretsYAML sampleReject sampleDigest sampleEncode
                (freshWorld plaintextOnly [])
              = Ret (Some renderedDocs, None) renderedWorld).
  { assert (F : match getSecretsYAML sampleReject sampleDigest sampleEncode
                        (freshWorld plaintextOnly []) with
                | Ret (Some _, None) _ => true
                | _ => false
                end = true) by reflexivity.
    unfold renderedDocs, renderedWorld.
    by destruct (getSecretsYAML sampleReject sampleDigest sampleEncode
                   (freshWorld plaintextOnly [])) as [[[d|] [e|]] w'|]. }
  split; [exact H|].
  pose proof (render_writes_back_and_repeats
                sampleReject sampleDigest sampleEncode _ _ _ H) as T.
  cbv zeta in T.
  destruct T as (_ & _ & Ha & _ & _ & _ & Hrep).
  split; [exact Ha|]. exact (proj1 (Hrep renderedWorld eq_refl)).
Defined.
